(** * Taichi hierarchical profiler ([taichi/system/profiler.h])

    A shallow embedding of [ProfilerRecords] (the accumulation tree and its
    report printer) and of [Profiler] (the scoped region handle), followed by
    the properties of the profiler that are checked against it.

    Modelling choices, all read off the header:
    - [float64] is IEEE-754 binary64, taken from the Standard Library's
      executable specification [SpecFloat] (53-bit significand, [emax] 1024);
    - [int64] and [int] are signed machine integers, embedded in [Z]; an
      operation whose mathematical result leaves the range is undefined
      behaviour in C++ and is reported as the fault [SignedOverflow];
    - nodes live in an arena ([list Node.t]); a [Node*] is an index into it
      and [nullptr] is [None].  Dereferencing [nullptr] or an index outside
      the arena is a fault;
    - [printf] appends one call record (format string and arguments) to the
      standard output; the clock [Time::get_time] is an explicit input. *)

From Stdlib Require Import ZArith Lia Bool Ascii String List.
From Stdlib Require Import Floats.SpecFloat.
From stdpp Require Import base option list strings.

Local Open Scope string_scope.
Local Open Scope list_scope.
Local Open Scope Z_scope.

(** ** Machine numbers *)

Definition float64 : Type := spec_float.

Definition f64_add : float64 -> float64 -> float64 := SFadd 53 1024.
Definition f64_sub : float64 -> float64 -> float64 := SFsub 53 1024.
Definition f64_mul : float64 -> float64 -> float64 := SFmul 53 1024.
Definition f64_div : float64 -> float64 -> float64 := SFdiv 53 1024.
Definition f64_lt : float64 -> float64 -> bool := SFltb.
Definition f64_eq : float64 -> float64 -> bool := SFeqb.

(** The conversion [(float64) k] of an integer, rounding to nearest even. *)
Definition f64_of_int (k : Z) : float64 := binary_normalize 53 1024 k 0 false.

Arguments f64_add : simpl never.
Arguments f64_sub : simpl never.
Arguments f64_mul : simpl never.
Arguments f64_div : simpl never.
Arguments f64_lt : simpl never.
Arguments f64_eq : simpl never.
Arguments f64_of_int : simpl never.

(** The literal [0.0_f64]. *)
Definition f64_zero : float64 := S754_zero false.

(** The literal [1e-6f]: the binary32 number nearest to one millionth,
    widened (exactly) to binary64 for the comparison with a [float64]. *)
Definition f32_1e_6 : spec_float :=
  Eval vm_compute in
    SFdiv 24 128 (binary_normalize 24 128 1 0 false)
                 (binary_normalize 24 128 1000000 0 false).

Definition f64_of_f32 (x : spec_float) : float64 :=
  match x with
  | S754_finite s m e => binary_normalize 53 1024 (cond_Zopp s (Zpos m)) e s
  | _ => x
  end.

Definition lit_1e_6f : float64 := Eval vm_compute in f64_of_f32 f32_1e_6.

(** The literals [0.1], [0.05] and [100.0] of type [double]. *)
Definition lit_0_1 : float64 :=
  Eval vm_compute in f64_div (f64_of_int 1) (f64_of_int 10).
Definition lit_0_05 : float64 :=
  Eval vm_compute in f64_div (f64_of_int 1) (f64_of_int 20).
Definition lit_100 : float64 := Eval vm_compute in f64_of_int 100.

Definition INT64_MAX : Z := 2 ^ 63 - 1.
Definition INT_MAX : Z := 2 ^ 31 - 1.
Definition INT_MIN : Z := - 2 ^ 31.

(** ** Outcomes of a call *)

Inductive fault : Type :=
  | NullDereference
  | InvalidPointer
  | SignedOverflow
  | AssertionFailure (info : string)
  | OutOfFuel.

Inductive result (A : Type) : Type :=
  | Ok (a : A)
  | Fault (f : fault).
Arguments Ok {A} a.
Arguments Fault {A} f.

Definition bind {A B : Type} (r : result A) (k : A -> result B) : result B :=
  match r with
  | Ok a => k a
  | Fault f => Fault f
  end.

Notation "'let*' x := r 'in' k" := (bind r (fun x => k))
  (at level 10, x name, r at level 100, k at level 200, only parsing).
Notation "'let*' ' p := r 'in' k" := (bind r (fun x => match x with p => k end))
  (at level 10, p pattern, r at level 100, k at level 200, only parsing).

(** [a + b] and [a - b] on [int]. *)
Definition int_add (a b : Z) : result Z :=
  if decide (INT_MIN <= a + b <= INT_MAX) then Ok (a + b) else Fault SignedOverflow.
Definition int_sub (a b : Z) : result Z :=
  if decide (INT_MIN <= a - b <= INT_MAX) then Ok (a - b) else Fault SignedOverflow.

(** The newline character of the C format strings. *)
Definition nl : string := String (ascii_of_nat 10) EmptyString.

(** ** [printf] *)

Inductive printf_arg : Type :=
  | ArgS (s : string)
  | ArgF (x : float64).

Record printf_call : Type := Printf { fmt : string; args : list printf_arg }.

(** Modelled from the spec: the macro [assert_info] of taichi/common/util.h,
    which is not part of this header.  A false condition is a contract
    violation that stops the program with the given diagnostic. *)
Definition assert_info (cond : bool) (info : string) : result unit :=
  if cond then Ok tt else Fault (AssertionFailure info).

(** ** [class ProfilerRecords] *)

Module ProfilerRecords.

Module Node.

Record t : Type := mk {
  childs : list nat;
  parent : option nat;
  name : string;
  total_time : float64;
  num_samples : Z
}.

(** [Node(const std::string &name, Node *parent)] *)
Definition new (name : string) (parent : option nat) : t :=
  {| childs := [];
     parent := parent;
     name := name;
     total_time := f64_zero;
     num_samples := 1 |}.

(** [void insert_sample(float64 sample)] *)
Definition insert_sample (n : t) (sample : float64) : result t :=
  if decide (num_samples n + 1 <= INT64_MAX) then
    Ok {| childs := childs n;
          parent := parent n;
          name := name n;
          total_time := f64_add (total_time n) sample;
          num_samples := num_samples n + 1 |}
  else Fault SignedOverflow.

(** [float64 get_averaged() const] *)
Definition get_averaged (n : t) : float64 :=
  f64_div (total_time n) (f64_of_int (Z.max (num_samples n) 1)).

(** The [for] loop of [get_child]: the first child called [name]. *)
Fixpoint find_child (heap : list t) (chs : list nat) (name : string)
  : result (option nat) :=
  match chs with
  | [] => Ok None
  | ch :: rest =>
      match heap !! ch with
      | None => Fault InvalidPointer
      | Some c =>
          if String.eqb (Node.name c) name then Ok (Some ch)
          else find_child heap rest name
      end
  end.

(** [childs.push_back(p)], where [p] owns a node just allocated. *)
Definition push_back (n : t) (p : nat) : t :=
  {| childs := childs n ++ [p];
     parent := parent n;
     name := name n;
     total_time := total_time n;
     num_samples := num_samples n |}.

(** [Node *get_child(const std::string &name)], called on [this].  The
    node made by [std::make_unique] is placed at the end of the arena. *)
Definition get_child (heap : list t) (this : nat) (name : string)
  : result (nat * list t) :=
  match heap !! this with
  | None => Fault InvalidPointer
  | Some n =>
      let* found := find_child heap (childs n) name in
      match found with
      | Some ch => Ok (ch, heap)
      | None =>
          let fresh := length heap in
          Ok (fresh,
              (<[this := push_back n fresh]> heap
                 ++ [new name (Some this)]))
      end
  end.

End Node.

Record t : Type := mk {
  heap : list Node.t;
  root : nat;
  current_node : option nat;
  current_depth : Z
}.

(** [ProfilerRecords()] *)
Definition new : t :=
  {| heap := [Node.new "[Taichi Profiler]" None];
     root := 0%nat;
     current_node := Some 0%nat;
     current_depth := 0 |}.

(** [*p] for a [Node *p]. *)
Definition deref (h : list Node.t) (p : option nat) : result Node.t :=
  match p with
  | None => Fault NullDereference
  | Some i =>
      match h !! i with
      | Some n => Ok n
      | None => Fault InvalidPointer
      end
  end.

(** [void insert_sample(float64 time)] *)
Definition insert_sample (pr : t) (time : float64) : result t :=
  match current_node pr with
  | None => Fault NullDereference
  | Some c =>
      let* n := deref (heap pr) (Some c) in
      let* n' := Node.insert_sample n time in
      Ok {| heap := <[c := n']> (heap pr);
            root := root pr;
            current_node := current_node pr;
            current_depth := current_depth pr |}
  end.

(** [void push(const std::string name)] *)
Definition push (pr : t) (name : string) : result t :=
  match current_node pr with
  | None => Fault NullDereference
  | Some c =>
      let* '(ch, h) := Node.get_child (heap pr) c name in
      let* d := int_add (current_depth pr) 1 in
      Ok {| heap := h;
            root := root pr;
            current_node := Some ch;
            current_depth := d |}
  end.

(** [void pop()] *)
Definition pop (pr : t) : result t :=
  let* n := deref (heap pr) (current_node pr) in
  let* d := int_sub (current_depth pr) 1 in
  Ok {| heap := heap pr;
        root := root pr;
        current_node := Node.parent n;
        current_depth := d |}.

(** The standard output is threaded through [print] together with the
    records, which [print] (a non-const member) is free to change. *)
Definition state : Type := t * list printf_call.

(** The lambda [make_indent] of [print], which captures [depth]. *)
Definition make_indent (depth additional : Z) (out : list printf_call)
  : result (list printf_call) :=
  let* k := int_add depth additional in
  Ok (out ++ repeat (Printf "  " []) (Z.to_nat k)).

(** The loop over [node->childs] taken when [total_time < 1e-6f]. *)
Fixpoint print_negligible (rec : nat -> Z -> state -> result state)
    (depth : Z) (chs : list nat) (st : state) : result state :=
  match chs with
  | [] => Ok st
  | ch :: rest =>
      let '(pr, out) := st in
      let* out := make_indent depth 1 out in
      let* c := deref (heap pr) (Some ch) in
      let child_time := Node.get_averaged c in
      let out :=
        (out ++ [Printf ("%6.2f %s" ++ nl)%string
                        [ArgF child_time; ArgS (Node.name c)]]) in
      let* d := int_add depth 1 in
      let* st := rec ch d (pr, out) in
      print_negligible rec depth rest st
  end.

(** The loop over [node->childs] of the other branch; it also carries the
    local [unaccounted]. *)
Fixpoint print_scaled (rec : nat -> Z -> state -> result state)
    (depth : Z) (unit : string) (scale total_time : float64)
    (chs : list nat) (st : state) (unaccounted : float64)
  : result (state * float64) :=
  match chs with
  | [] => Ok (st, unaccounted)
  | ch :: rest =>
      let '(pr, out) := st in
      let* out := make_indent depth 1 out in
      let* c := deref (heap pr) (Some ch) in
      let child_time := Node.get_averaged c in
      let out :=
        (out ++ [Printf ("%6.2f%s %4.1f%%  %s" ++ nl)%string
                        [ArgF (f64_mul child_time scale); ArgS unit;
                         ArgF (f64_div (f64_mul child_time lit_100) total_time);
                         ArgS (Node.name c)]]) in
      let* d := int_add depth 1 in
      let* st := rec ch d (pr, out) in
      print_scaled rec depth unit scale total_time rest st
                   (f64_sub unaccounted child_time)
  end.

(** [void print(Node *node, int depth)].  The recursion follows child
    pointers, so it is bounded by [fuel].  The local [scale] has the type
    [real] of taichi/common/util.h (a float or a double by configuration);
    it only holds 1 or 1000, which either type represents exactly, and is
    promoted to [float64] in [child_time * scale]. *)
Fixpoint print_node (fuel : nat) (node : nat) (depth : Z) (st : state)
  : result state :=
  match fuel with
  | O => Fault OutOfFuel
  | S fuel' =>
      let '(pr, out) := st in
      let* n := deref (heap pr) (Some node) in
      let total_time := Node.get_averaged n in
      let* out :=
        (if depth =? 0 then
           let* out := make_indent depth 0 out in
           Ok (out ++ [Printf ("%s" ++ nl)%string [ArgS (Node.name n)]])
         else Ok out) in
      if f64_lt total_time lit_1e_6f then
        print_negligible (print_node fuel') depth (Node.childs n) (pr, out)
      else
        let '(unit, scale) :=
          if f64_lt total_time lit_0_1 then ("ms", f64_of_int 1000)
          else ("s", f64_of_int 1) in
        let* '((pr, out), unaccounted) :=
          print_scaled (print_node fuel') depth unit scale total_time
                       (Node.childs n) (pr, out) total_time in
        if negb (bool_decide (Node.childs n = []))
           && f64_lt (f64_mul total_time lit_0_05) unaccounted then
          let* out := make_indent depth 1 out in
          Ok (pr,
              (out ++ [Printf ("%6.2f%s %4.1f%%  %s" ++ nl)%string
                         [ArgF (f64_mul unaccounted scale); ArgS unit;
                          ArgF (f64_div (f64_mul unaccounted lit_100) total_time);
                          ArgS "[unaccounted]"]]))
        else Ok (pr, out)
  end.

(** [void print()].  No path from the root is longer than the number of
    nodes, which is the fuel given to the traversal. *)
Definition print (st : state) : result state :=
  print_node (length (heap (fst st))) (root (fst st)) 0 st.

End ProfilerRecords.

(** ** [class Profiler] *)

Module Profiler.

Record t : Type := mk {
  start_time : float64;
  name : string;
  stopped : bool
}.

(** [Profiler(std::string name)]; [now] is what [Time::get_time()]
    returns.  [ProfilerRecords::get_instance()] is the one records object
    of the process, passed in and out. *)
Definition new (now : float64) (name : string) (pr : ProfilerRecords.t)
  : result (t * ProfilerRecords.t) :=
  let p := {| start_time := now; name := name; stopped := false |} in
  let* pr := ProfilerRecords.push pr name in
  Ok (p, pr).

(** [void stop()]; the handle is returned as the call leaves it. *)
Definition stop (now : float64) (p : t) (pr : ProfilerRecords.t)
  : result (t * ProfilerRecords.t) :=
  let* _ := assert_info (negb (stopped p)) "Profiler already stopped." in
  let elapsed := f64_sub now (start_time p) in
  let* pr := ProfilerRecords.insert_sample pr elapsed in
  let* pr := ProfilerRecords.pop pr in
  Ok (p, pr).

(** [~Profiler()] *)
Definition destroy (now : float64) (p : t) (pr : ProfilerRecords.t)
  : result ProfilerRecords.t :=
  if negb (stopped p) then
    let* '(_, pr) := stop now p pr in
    Ok pr
  else Ok pr.

End Profiler.

(** [#define TC_PROFILE(name, statements) { Profiler _(name); statements; }]:
    the handle is built, the statements run, and leaving the block runs the
    destructor of the handle.  [t_begin] and [t_end] are what the clock
    shows in the constructor and in the destructor. *)
Definition TC_PROFILE (t_begin t_end : float64) (name : string)
    (statements : ProfilerRecords.t -> result ProfilerRecords.t)
    (pr : ProfilerRecords.t) : result ProfilerRecords.t :=
  let* '(p, pr) := Profiler.new t_begin name pr in
  let* pr := statements pr in
  Profiler.destroy t_end p pr.

Import ProfilerRecords.

(** ** Programs that use the profiler *)

(** The states a program can bring the records object into: it is built
    once, and then only [push], [pop] and [insert_sample] act on it
    ([print] is shown below to leave it as it is). *)
Inductive reachable : ProfilerRecords.t -> Prop :=
  | reach_new : reachable new
  | reach_push pr name pr' :
      reachable pr -> push pr name = Ok pr' -> reachable pr'
  | reach_insert_sample pr time pr' :
      reachable pr -> insert_sample pr time = Ok pr' -> reachable pr'
  | reach_pop pr pr' :
      reachable pr -> pop pr = Ok pr' -> reachable pr'.

#[local] Set Warnings "-register-all".

(** A properly nested run of regions: [Profiler p(name)] when the clock
    shows [t_begin], then the regions opened inside it, one after the other,
    then [p.stop()] when the clock shows [t_end].  (At the end of a
    [TC_PROFILE] block the call comes from the destructor, which makes the
    same call on a handle that is not marked stopped.) *)
Inductive region : Type :=
  | Region (name : string) (t_begin t_end : float64) (body : list region).

(** Runs a region and lists the records after each of its calls, in order:
    the first entry follows the constructor of the outermost handle, the
    last one follows its [stop]. *)
Fixpoint run_region (r : region) (pr : ProfilerRecords.t)
  : result (list ProfilerRecords.t) :=
  match r with
  | Region name t_begin t_end body =>
      let* '(p, pr1) := Profiler.new t_begin name pr in
      let* tr :=
        (fix run_body (rs : list region) (pr : ProfilerRecords.t)
           : result (list ProfilerRecords.t) :=
           match rs with
           | [] => Ok []
           | r :: rs' =>
               let* tr := run_region r pr in
               let* tr' := run_body rs' (List.last tr pr) in
               Ok (tr ++ tr')
           end) body pr1 in
      let* '(_, pr2) := Profiler.stop t_end p (List.last tr pr1) in
      Ok (pr1 :: tr ++ [pr2])
  end.

(** The regions of a body, one after the other. *)
Definition run_body : list region -> ProfilerRecords.t
                      -> result (list ProfilerRecords.t) :=
  fix run_body (rs : list region) (pr : ProfilerRecords.t) :=
    match rs with
    | [] => Ok []
    | r :: rs' =>
        let* tr := run_region r pr in
        let* tr' := run_body rs' (List.last tr pr) in
        Ok (tr ++ tr')
    end.

(** Number of calls ([Profiler] constructors and [stop]s) of a region. *)
Fixpoint calls (r : region) : nat :=
  match r with
  | Region _ _ _ body => S (S (list_sum (List.map calls body)))
  end.

(** ** Shape of the arena *)

(** [at_depth h i d]: node [i] is [d] child links below the root. *)
Inductive at_depth (h : list Node.t) : nat -> Z -> Prop :=
  | at_root : at_depth h 0%nat 0
  | at_child p n c d :
      at_depth h p d -> h !! p = Some n -> c ∈ Node.childs n ->
      at_depth h c (d + 1).

Record wf (pr : ProfilerRecords.t) : Prop := {
  wf_root : root pr = 0%nat;
  wf_root_parent :
    exists r, heap pr !! 0%nat = Some r /\ Node.parent r = None;
  wf_samples :
    forall i n, heap pr !! i = Some n ->
      1 <= Node.num_samples n <= INT64_MAX;
  wf_childs :
    forall i n c, heap pr !! i = Some n -> c ∈ Node.childs n ->
      (i < c)%nat /\
      exists cn, heap pr !! c = Some cn /\ Node.parent cn = Some i;
  wf_depths :
    forall i n, heap pr !! i = Some n ->
      exists d, at_depth (heap pr) i d /\ 0 <= d <= INT_MAX;
  wf_cursor :
    match current_node pr with
    | Some c => at_depth (heap pr) c (current_depth pr)
    | None => current_depth pr = -1
    end
}.

(** ** Notions used to state the properties *)

(** No child of [n] is called [name]. *)
Definition absent (h : list Node.t) (n : Node.t) (name : string) : Prop :=
  forall ch, ch ∈ Node.childs n ->
    exists c, h !! ch = Some c /\ Node.name c <> name.

(** Number of regions of a run, and how deep they nest. *)
Fixpoint regions (r : region) : Z :=
  match r with
  | Region _ _ _ body => 1 + fold_right (fun r acc => regions r + acc) 0 body
  end.

Fixpoint nesting (r : region) : Z :=
  match r with
  | Region _ _ _ body => 1 + fold_right (fun r acc => Z.max (nesting r) acc) 0 body
  end.

(** Every sample counter can still take [k] samples. *)
Definition headroom (pr : ProfilerRecords.t) (k : Z) : Prop :=
  forall i n, heap pr !! i = Some n -> Node.num_samples n + k <= INT64_MAX.

(** Nodes stay where they are and keep their parent. *)
Definition stable (pr pr' : ProfilerRecords.t) : Prop :=
  forall i n, heap pr !! i = Some n ->
    exists n', heap pr' !! i = Some n' /\ Node.parent n' = Node.parent n.

(** What a run of a region does to a well-shaped state with enough room. *)
Definition region_ok (r : region) : Prop :=
  forall pr c k,
    wf pr -> current_node pr = Some c ->
    current_depth pr + nesting r <= INT_MAX ->
    0 <= k -> headroom pr (regions r + k) ->
    exists tr pr',
      run_region r pr = Ok (tr ++ [pr']) /\
      wf pr' /\ current_node pr' = Some c /\
      current_depth pr' = current_depth pr /\
      headroom pr' k /\ stable pr pr' /\
      Forall (fun s => wf s /\ current_depth pr < current_depth s) tr.

(** The region [A { B }] used to exercise the statements below. *)
Definition region_A_B : region :=
  Region "A" (f64_of_int 0) (f64_of_int 3)
         [Region "B" (f64_of_int 1) (f64_of_int 2) []].

(** [k] levels of indentation, as [make_indent] prints them. *)
Definition indent (k : Z) : list printf_call :=
  repeat (Printf "  " []) (Z.to_nat k).

(** [prints fuel pr node depth o]: whatever is on the standard output,
    [print(node, depth)] returns with [o] appended and the records as they
    were. *)
Definition prints (fuel : nat) (pr : ProfilerRecords.t) (node : nat)
    (depth : Z) (o : list printf_call) : Prop :=
  forall out, print_node fuel node depth (pr, out) = Ok (pr, out ++ o).

(** The same for the recursive call handed to the two loops. *)
Definition rec_prints (rec : nat -> Z -> state -> result state)
    (pr : ProfilerRecords.t) (ch : nat) (d : Z) (o : list printf_call) : Prop :=
  forall out, rec ch d (pr, out) = Ok (pr, out ++ o).

(** *** The layout of the report, in the words of its description *)

(** The averaged time of the child behind pointer [ch] (which, where this is
    used, points into the arena). *)
Definition averaged_at (h : list Node.t) (ch : nat) : float64 :=
  match h !! ch with
  | Some c => Node.get_averaged c
  | None => S754_nan
  end.

(** The averaged total is below the small threshold. *)
Definition negligible (total : float64) : bool := f64_lt total lit_1e_6f.

(** Unit and scale, chosen from the averaged total of the expanded node. *)
Definition unit_of (total : float64) : string :=
  if f64_lt total lit_0_1 then "ms" else "s".
Definition scale_of (total : float64) : float64 :=
  if f64_lt total lit_0_1 then f64_of_int 1000 else f64_of_int 1.

(** The line of a child [c] of a node whose averaged total is [total]. *)
Definition child_line (total : float64) (c : Node.t) : printf_call :=
  if negligible total then
    Printf ("%6.2f %s" ++ nl)%string
           [ArgF (Node.get_averaged c); ArgS (Node.name c)]
  else
    Printf ("%6.2f%s %4.1f%%  %s" ++ nl)%string
           [ArgF (f64_mul (Node.get_averaged c) (scale_of total));
            ArgS (unit_of total);
            ArgF (f64_div (f64_mul (Node.get_averaged c) lit_100) total);
            ArgS (Node.name c)].

(** The remainder: the averaged total of [n] with the averaged time of each
    child subtracted in turn. *)
Definition unaccounted (h : list Node.t) (n : Node.t) : float64 :=
  fold_left (fun u ch => f64_sub u (averaged_at h ch))
            (Node.childs n) (Node.get_averaged n).

Definition unaccounted_line (total u : float64) : printf_call :=
  Printf ("%6.2f%s %4.1f%%  %s" ++ nl)%string
         [ArgF (f64_mul u (scale_of total)); ArgS (unit_of total);
          ArgF (f64_div (f64_mul u lit_100) total); ArgS "[unaccounted]"].

(** The condition of C8 as the claim words it: at least one child, and a
    remainder above 5% of the averaged total. *)
Definition unaccounted_claimed (h : list Node.t) (n : Node.t) : bool :=
  negb (bool_decide (Node.childs n = []))
  && f64_lt (f64_mul (Node.get_averaged n) lit_0_05) (unaccounted h n).

(** The condition under which [print] does print the line: the same, for a
    node whose averaged total is not negligible. *)
Definition unaccounted_shown (h : list Node.t) (n : Node.t) : bool :=
  negb (negligible (Node.get_averaged n)) && unaccounted_claimed h n.

(** What [print] writes before and after the blocks of the children. *)
Definition header (depth : Z) (n : Node.t) : list printf_call :=
  if depth =? 0 then [Printf ("%s" ++ nl)%string [ArgS (Node.name n)]] else [].

Definition trailer (h : list Node.t) (depth : Z) (n : Node.t)
  : list printf_call :=
  if unaccounted_shown h n then
    indent (depth + 1)
      ++ [unaccounted_line (Node.get_averaged n) (unaccounted h n)]
  else [].

(** A call that prints an "[unaccounted]" line. *)
Definition is_unaccounted_line (call : printf_call) : bool :=
  match List.last (args call) (ArgS EmptyString) with
  | ArgS s => String.eqb s "[unaccounted]"
  | ArgF _ => false
  end.

(** The records after the region [A { B }] has run on fresh records. *)
Definition records_A_B : ProfilerRecords.t :=
  Eval vm_compute in
    match run_region region_A_B new with
    | Ok tr => List.last tr new
    | Fault _ => new
    end.

(** A region [A { B }] in which [A] lasts 2^-20 s, a little under a
    microsecond, and [B] no time at all; and the records after it has run
    on fresh records. *)
Definition region_tiny : region :=
  Region "A" (f64_of_int 0) (f64_div (f64_of_int 1) (f64_of_int 1048576))
         [Region "B" (f64_of_int 0) (f64_of_int 0) []].

Definition records_tiny : ProfilerRecords.t :=
  Eval vm_compute in
    match run_region region_tiny new with
    | Ok tr => List.last tr new
    | Fault _ => new
    end.

(** ** Notions used for the further properties *)

(** [evolves pr pr']: the program takes the records from [pr] to [pr'] by
    calls of [push], [insert_sample] and [pop]. *)
Inductive evolves : ProfilerRecords.t -> ProfilerRecords.t -> Prop :=
  | evolves_refl pr : evolves pr pr
  | evolves_push pr pr1 name pr2 :
      evolves pr pr1 -> push pr1 name = Ok pr2 -> evolves pr pr2
  | evolves_insert_sample pr pr1 time pr2 :
      evolves pr pr1 -> insert_sample pr1 time = Ok pr2 -> evolves pr pr2
  | evolves_pop pr pr1 pr2 :
      evolves pr pr1 -> pop pr1 = Ok pr2 -> evolves pr pr2.

(** What every call keeps of the nodes that exist: their place in the arena,
    their name and parent, the children they have (new ones come after
    them), and at least the samples they have counted. *)
Definition extends (pr pr' : ProfilerRecords.t) : Prop :=
  root pr' = root pr /\
  (length (heap pr) <= length (heap pr'))%nat /\
  forall i n, heap pr !! i = Some n ->
    exists n', heap pr' !! i = Some n' /\
      Node.name n' = Node.name n /\
      Node.parent n' = Node.parent n /\
      Node.childs n `prefix_of` Node.childs n' /\
      Node.num_samples n <= Node.num_samples n'.

(** The children of every node have different names. *)
Definition distinct_names (pr : ProfilerRecords.t) : Prop :=
  forall i n j1 j2 c1 c2 n1 n2,
    heap pr !! i = Some n ->
    Node.childs n !! j1 = Some c1 -> Node.childs n !! j2 = Some c2 ->
    heap pr !! c1 = Some n1 -> heap pr !! c2 = Some n2 ->
    Node.name n1 = Node.name n2 -> j1 = j2.

(** Every node with a parent is among the children of that parent, and only
    the first node of the arena has none. *)
Definition parents_listed (pr : ProfilerRecords.t) : Prop :=
  forall i n, heap pr !! i = Some n ->
    match Node.parent n with
    | None => i = 0%nat
    | Some p => exists pn, heap pr !! p = Some pn /\ i ∈ Node.childs pn
    end.

(** Follows the [parent] pointers from node [i] and counts the steps to the
    node that has none. *)
Fixpoint climb (fuel : nat) (h : list Node.t) (i : nat) : option Z :=
  match fuel with
  | O => None
  | S fuel' =>
      match h !! i with
      | None => None
      | Some n =>
          match Node.parent n with
          | None => Some 0
          | Some p =>
              match climb fuel' h p with
              | Some d => Some (d + 1)
              | None => None
              end
          end
      end
  end.

(** [p.stop()] called once for each clock reading of [nows], in turn. *)
Fixpoint stops (nows : list float64) (p : Profiler.t)
    (pr : ProfilerRecords.t) : result (Profiler.t * ProfilerRecords.t) :=
  match nows with
  | [] => Ok (p, pr)
  | now :: rest =>
      let* '(p', pr') := Profiler.stop now p pr in
      stops rest p' pr'
  end.

(** The nodes that are at most [d] links below the root keep their total
    time and their sample count. *)
Definition keeps_shallow (d : Z) (pr pr' : ProfilerRecords.t) : Prop :=
  forall i n di, heap pr !! i = Some n -> at_depth (heap pr) i di -> di <= d ->
    exists n', heap pr' !! i = Some n' /\
      Node.total_time n' = Node.total_time n /\
      Node.num_samples n' = Node.num_samples n.

(** The records after [push("A")] on fresh records. *)
Definition records_A : ProfilerRecords.t :=
  Eval vm_compute in
    match push new "A" with
    | Ok pr => pr
    | Fault _ => new
    end.

(** A call that prints a line with a percentage. *)
Definition is_percentage_line (call : printf_call) : bool :=
  String.eqb (fmt call) ("%6.2f%s %4.1f%%  %s" ++ nl)%string.

(** [below h c i]: node [i] is a child of [c], or a child of a node that is
    below [c]. *)
Inductive below (h : list Node.t) (c : nat) : nat -> Prop :=
  | below_child n x :
      h !! c = Some n -> x ∈ Node.childs n -> below h c x
  | below_step p n x :
      below h c p -> h !! p = Some n -> x ∈ Node.childs n -> below h c x.

(** Every node of [pr'] that is not below [c] was already there in [pr],
    with the total time and the sample count it has in [pr']. *)
Definition only_below (c : nat) (pr pr' : ProfilerRecords.t) : Prop :=
  forall i n', heap pr' !! i = Some n' -> ~ below (heap pr') c i ->
    exists n, heap pr !! i = Some n /\
      Node.total_time n' = Node.total_time n /\
      Node.num_samples n' = Node.num_samples n.

(** ** Basic facts *)

Lemma bind_Ok {A B : Type} (r : result A) (k : A -> result B) (b : B) :
  bind r k = Ok b -> exists a, r = Ok a /\ k a = Ok b.
Proof. destruct r as [a|f]; simpl; [eauto | discriminate]. Qed.

Lemma int_add_Ok a b d :
  int_add a b = Ok d -> d = a + b /\ INT_MIN <= a + b <= INT_MAX.
Proof. unfold int_add. case_decide; [|discriminate]. intros [= <-]. auto. Qed.

Lemma int_sub_Ok a b d :
  int_sub a b = Ok d -> d = a - b /\ INT_MIN <= a - b <= INT_MAX.
Proof. unfold int_sub. case_decide; [|discriminate]. intros [= <-]. auto. Qed.

Lemma int_add_in_range a b :
  INT_MIN <= a + b <= INT_MAX -> int_add a b = Ok (a + b).
Proof. intros H. unfold int_add. by rewrite decide_True. Qed.

Lemma int_sub_in_range a b :
  INT_MIN <= a - b <= INT_MAX -> int_sub a b = Ok (a - b).
Proof. intros H. unfold int_sub. by rewrite decide_True. Qed.

Lemma deref_Some (h : list Node.t) (i : nat) (n : Node.t) :
  h !! i = Some n -> deref h (Some i) = Ok n.
Proof. intros H. simpl. by rewrite H. Qed.

Lemma deref_Ok (h : list Node.t) (p : option nat) (n : Node.t) :
  deref h p = Ok n -> exists i, p = Some i /\ h !! i = Some n.
Proof.
  destruct p as [i|]; simpl; [|discriminate].
  destruct (h !! i) eqn:E; [|discriminate]. intros [= <-]. eauto.
Qed.

Lemma Node_insert_sample_Ok (n n' : Node.t) (x : float64) :
  Node.insert_sample n x = Ok n' ->
  Node.childs n' = Node.childs n /\ Node.parent n' = Node.parent n /\
  Node.name n' = Node.name n /\
  Node.total_time n' = f64_add (Node.total_time n) x /\
  Node.num_samples n' = Node.num_samples n + 1 /\
  Node.num_samples n + 1 <= INT64_MAX.
Proof.
  unfold Node.insert_sample. case_decide; [|discriminate].
  intros [= <-]. simpl. auto 10.
Qed.

(** What the loop of [get_child] finds. *)
Lemma find_child_Some (h : list Node.t) chs name ch :
  Node.find_child h chs name = Ok (Some ch) ->
  ch ∈ chs /\ exists c, h !! ch = Some c /\ Node.name c = name.
Proof.
  induction chs as [|x chs IH]; simpl; [discriminate|].
  destruct (h !! x) as [c|] eqn:E; [|discriminate].
  destruct (String.eqb (Node.name c) name) eqn:En.
  - intros [= <-]. apply String.eqb_eq in En. split; [left|eauto].
  - intros H. destruct (IH H) as [? ?]. split; [by right|done].
Qed.

Lemma find_child_None (h : list Node.t) chs name :
  Node.find_child h chs name = Ok None ->
  forall ch, ch ∈ chs -> exists c, h !! ch = Some c /\ Node.name c <> name.
Proof.
  induction chs as [|x chs IH]; simpl; intros H ch Hin.
  - by apply elem_of_nil in Hin.
  - destruct (h !! x) as [c|] eqn:E; [|discriminate].
    destruct (String.eqb (Node.name c) name) eqn:En; [discriminate|].
    apply String.eqb_neq in En.
    apply elem_of_cons in Hin as [->|Hin]; eauto.
Qed.

Lemma find_child_absent (h : list Node.t) chs name :
  (forall ch, ch ∈ chs -> exists c, h !! ch = Some c /\ Node.name c <> name) ->
  Node.find_child h chs name = Ok None.
Proof.
  induction chs as [|x chs IH]; simpl; intros H; [done|].
  destruct (H x) as (c & -> & Hc); [left|].
  apply String.eqb_neq in Hc. rewrite Hc.
  apply IH. intros ch Hin. apply H. by right.
Qed.

Lemma find_child_app_found (h : list Node.t) chs name fresh c :
  Node.find_child h chs name = Ok None ->
  h !! fresh = Some c -> Node.name c = name ->
  Node.find_child h (chs ++ [fresh]) name = Ok (Some fresh).
Proof.
  induction chs as [|x chs IH]; simpl; intros H Hf Hn.
  - rewrite Hf. apply String.eqb_eq in Hn. by rewrite Hn.
  - destruct (h !! x) as [cx|]; [|discriminate].
    destruct (String.eqb (Node.name cx) name); [discriminate|]. by apply IH.
Qed.

(** The two ways [get_child] returns. *)
Lemma get_child_Ok (h : list Node.t) this name ch h' :
  Node.get_child h this name = Ok (ch, h') ->
  exists n, h !! this = Some n /\
    ((Node.find_child h (Node.childs n) name = Ok (Some ch) /\ h' = h) \/
     (Node.find_child h (Node.childs n) name = Ok None /\
      ch = length h /\
      h' = <[this := Node.push_back n (length h)]> h
             ++ [Node.new name (Some this)])).
Proof.
  unfold Node.get_child. destruct (h !! this) as [n|]; [|discriminate].
  intros H. exists n. split; [done|].
  apply bind_Ok in H as ([ch'|] & Hf & H); injection H as <- <-; auto.
Qed.

(** ** The invariant of reachable states *)

Lemma wf_new : wf new.
Proof.
  split; simpl; try done.
  - eexists. split; reflexivity.
  - intros [|i] n; [|by destruct i]. intros [= <-]. simpl. unfold INT64_MAX. lia.
  - intros [|i] n c; [|by destruct i]. intros [= <-]. simpl.
    intros H. by apply elem_of_nil in H.
  - intros [|i] n; [|by destruct i]. intros _. exists 0.
    split; [constructor|]. unfold INT_MAX. lia.
  - constructor.
Qed.

Lemma at_depth_lookup pr i d :
  wf pr -> at_depth (heap pr) i d -> exists n, heap pr !! i = Some n.
Proof.
  intros Hwf H. destruct H as [|p n c d Hp Hn Hc].
  - destruct (wf_root_parent _ Hwf) as (r & ? & _). eauto.
  - destruct (wf_childs _ Hwf _ _ _ Hn Hc) as (_ & cn & ? & _). eauto.
Qed.

Lemma at_depth_root_inv pr d :
  wf pr -> at_depth (heap pr) 0%nat d -> d = 0.
Proof.
  intros Hwf H. inversion H as [|p n c d' Hp Hn Hc]; subst; [done|].
  destruct (wf_childs _ Hwf _ _ _ Hn Hc) as (? & _). lia.
Qed.

Lemma at_depth_fun pr i d d' :
  wf pr -> at_depth (heap pr) i d -> at_depth (heap pr) i d' -> d = d'.
Proof.
  intros Hwf H. revert d'.
  induction H as [|p n c d Hp IH Hn Hc]; intros d' H'.
  - symmetry. by eapply at_depth_root_inv.
  - inversion H' as [|p' n' c' e Hp' Hn' Hc']; subst.
    + destruct (wf_childs _ Hwf _ _ _ Hn Hc) as (? & _). lia.
    + destruct (wf_childs _ Hwf _ _ _ Hn Hc) as (_ & cn & E1 & P1).
      destruct (wf_childs _ Hwf _ _ _ Hn' Hc') as (_ & cn' & E2 & P2).
      assert (p = p') as <- by congruence.
      by rewrite (IH e Hp').
Qed.

Lemma at_depth_range pr i d :
  wf pr -> at_depth (heap pr) i d -> 0 <= d <= INT_MAX.
Proof.
  intros Hwf H. destruct (at_depth_lookup _ _ _ Hwf H) as (n & Hn).
  destruct (wf_depths _ Hwf _ _ Hn) as (d' & H' & ?).
  by rewrite (at_depth_fun _ _ _ _ Hwf H H').
Qed.

(** Child links are only ever added: depths survive. *)
Lemma at_depth_mono (h h' : list Node.t) i d :
  (forall p n, h !! p = Some n ->
     exists n', h' !! p = Some n' /\
                forall c, c ∈ Node.childs n -> c ∈ Node.childs n') ->
  at_depth h i d -> at_depth h' i d.
Proof.
  intros Hle H. induction H as [|p n c d Hp IH Hn Hc]; [constructor|].
  destruct (Hle _ _ Hn) as (n' & Hn' & Hsub).
  econstructor; eauto.
Qed.

Lemma wf_cursor_at_root pr :
  wf pr -> current_node pr = Some (root pr) -> current_depth pr = 0.
Proof.
  intros Hwf Hc. pose proof (wf_cursor _ Hwf) as H.
  rewrite Hc, (wf_root _ Hwf) in H. by eapply at_depth_root_inv.
Qed.

Lemma wf_cursor_lookup pr c :
  wf pr -> current_node pr = Some c -> exists n, heap pr !! c = Some n.
Proof.
  intros Hwf Hc. pose proof (wf_cursor _ Hwf) as H. rewrite Hc in H.
  by eapply at_depth_lookup.
Qed.

Lemma wf_cursor_depth pr c :
  wf pr -> current_node pr = Some c -> 0 <= current_depth pr <= INT_MAX.
Proof.
  intros Hwf Hc. pose proof (wf_cursor _ Hwf) as H. rewrite Hc in H.
  by eapply at_depth_range.
Qed.

Lemma insert_sample_Ok pr x pr' :
  insert_sample pr x = Ok pr' ->
  exists c n n', current_node pr = Some c /\ heap pr !! c = Some n /\
    Node.insert_sample n x = Ok n' /\
    pr' = {| heap := <[c := n']> (heap pr); root := root pr;
             current_node := current_node pr;
             current_depth := current_depth pr |}.
Proof.
  unfold insert_sample. destruct (current_node pr) as [c|]; [|discriminate].
  intros H. apply bind_Ok in H as (n & Hn & H).
  apply deref_Ok in Hn as (i & [= <-] & Hn).
  apply bind_Ok in H as (n' & Hn' & [= <-]). eauto 10.
Qed.

Lemma wf_insert_sample pr x pr' :
  wf pr -> insert_sample pr x = Ok pr' -> wf pr'.
Proof.
  intros Hwf H.
  apply insert_sample_Ok in H as (c & n & n' & Hc & Hn & Hn' & ->).
  apply Node_insert_sample_Ok in Hn' as (Hch & Hpa & _ & _ & Hns & Hle).
  pose proof (lookup_lt_Some _ _ _ Hn) as Hlt.
  assert (Hlook : forall i m, <[c := n']> (heap pr) !! i = Some m ->
            exists m0, heap pr !! i = Some m0 /\
              Node.childs m = Node.childs m0 /\
              Node.parent m = Node.parent m0 /\
              (1 <= Node.num_samples m0 <= INT64_MAX ->
               1 <= Node.num_samples m <= INT64_MAX)).
  { intros i m Hm. destruct (decide (c = i)) as [<-|Hne].
    - rewrite list_lookup_insert_eq in Hm by done. injection Hm as <-.
      exists n. repeat split; auto; lia.
    - rewrite list_lookup_insert_ne in Hm by done. exists m. auto. }
  assert (Hback : forall i m, heap pr !! i = Some m ->
            exists m', <[c := n']> (heap pr) !! i = Some m' /\
              Node.childs m' = Node.childs m /\
              Node.parent m' = Node.parent m).
  { intros i m Hm. destruct (decide (c = i)) as [<-|Hne].
    - rewrite list_lookup_insert_eq by done. exists n'.
      assert (m = n) as -> by congruence. auto.
    - rewrite list_lookup_insert_ne by done. eauto. }
  assert (Hmono : forall i d, at_depth (heap pr) i d ->
                              at_depth (<[c := n']> (heap pr)) i d).
  { intros i d. apply at_depth_mono. intros p m Hm.
    destruct (Hback _ _ Hm) as (m' & ? & E & _). exists m'.
    split; [done|]. by rewrite E. }
  split; simpl.
  - apply Hwf.
  - destruct (wf_root_parent _ Hwf) as (r & Hr & Hp).
    destruct (Hback _ _ Hr) as (r' & ? & _ & E). exists r'.
    split; [done|congruence].
  - intros i m Hm. destruct (Hlook _ _ Hm) as (m0 & Hm0 & _ & _ & Hs).
    apply Hs. eapply wf_samples; eauto.
  - intros i m ch Hm Hin. destruct (Hlook _ _ Hm) as (m0 & Hm0 & E & _).
    rewrite E in Hin.
    destruct (wf_childs _ Hwf _ _ _ Hm0 Hin) as (? & cn & Hcn & Hpar).
    split; [done|]. destruct (Hback _ _ Hcn) as (cn' & ? & _ & E').
    exists cn'. split; [done|congruence].
  - intros i m Hm. destruct (Hlook _ _ Hm) as (m0 & Hm0 & _).
    destruct (wf_depths _ Hwf _ _ Hm0) as (d & ? & ?). eauto.
  - pose proof (wf_cursor _ Hwf) as Hcur. rewrite Hc in *. auto.
Qed.

(** The arena after [get_child] has allocated a node. *)
Lemma lookup_alloc (h : list Node.t) c n name i :
  h !! c = Some n ->
  (<[c := Node.push_back n (length h)]> h ++ [Node.new name (Some c)]) !! i =
    if decide (i = c) then Some (Node.push_back n (length h))
    else if decide (i = length h) then Some (Node.new name (Some c))
    else h !! i.
Proof.
  intros Hn. pose proof (lookup_lt_Some _ _ _ Hn) as Hlt.
  destruct (decide (i = c)) as [->|Hne].
  - rewrite lookup_app_l by (rewrite length_insert; lia).
    by apply list_lookup_insert_eq.
  - destruct (decide (i = length h)) as [->|Hne'].
    + rewrite lookup_app_r by (rewrite length_insert; lia).
      rewrite length_insert. by replace (length h - length h)%nat with 0%nat by lia.
    + destruct (decide (i < length h)%nat) as [Hi|Hi].
      * rewrite lookup_app_l by (rewrite length_insert; lia).
        by apply list_lookup_insert_ne.
      * rewrite (lookup_ge_None_2 h i) by lia.
        apply lookup_ge_None_2. rewrite length_app, length_insert. simpl. lia.
Qed.

Lemma push_Ok pr name pr' :
  push pr name = Ok pr' ->
  exists c ch h, current_node pr = Some c /\
    Node.get_child (heap pr) c name = Ok (ch, h) /\
    INT_MIN <= current_depth pr + 1 <= INT_MAX /\
    pr' = {| heap := h; root := root pr; current_node := Some ch;
             current_depth := current_depth pr + 1 |}.
Proof.
  unfold push. destruct (current_node pr) as [c|]; [|discriminate].
  intros H. apply bind_Ok in H as ([ch h] & Hg & H).
  apply bind_Ok in H as (d & Hd & [= <-]).
  apply int_add_Ok in Hd as [-> ?]. eauto 10.
Qed.

Lemma wf_push pr name pr' : wf pr -> push pr name = Ok pr' -> wf pr'.
Proof.
  intros Hwf H. apply push_Ok in H as (c & ch & h & Hc & Hg & Hd & ->).
  pose proof (wf_cursor _ Hwf) as Hcur. rewrite Hc in Hcur.
  pose proof (at_depth_range _ _ _ Hwf Hcur) as Hrange.
  apply get_child_Ok in Hg as (n & Hn & [[Hf ->]|(Hf & -> & ->)]).
  - apply find_child_Some in Hf as (Hin & _).
    split; simpl; try apply Hwf. econstructor; eauto.
  - set (h' := <[c := Node.push_back n (length (heap pr))]> (heap pr)
                 ++ [Node.new name (Some c)]).
    pose proof (lookup_lt_Some _ _ _ Hn) as Hlt.
    assert (Hback : forall i m0, heap pr !! i = Some m0 ->
              exists m, h' !! i = Some m /\
                Node.parent m = Node.parent m0 /\
                forall x, x ∈ Node.childs m0 -> x ∈ Node.childs m).
    { intros i m0 Hm0. unfold h'. rewrite (lookup_alloc _ _ _ _ _ Hn).
      pose proof (lookup_lt_Some _ _ _ Hm0).
      destruct (decide (i = c)) as [->|].
      - assert (m0 = n) as -> by congruence. eexists. split; [done|].
        simpl. split; [done|]. intros x Hx. apply elem_of_app. by left.
      - rewrite decide_False by lia. eauto. }
    assert (Hmono : forall i d, at_depth (heap pr) i d -> at_depth h' i d).
    { intros i d. apply at_depth_mono. intros p m Hm.
      destruct (Hback _ _ Hm) as (m' & ? & _ & ?). eauto. }
    assert (Hfresh : at_depth h' (length (heap pr)) (current_depth pr + 1)).
    { eapply (at_child h' c); [by apply Hmono| |].
      - unfold h'. rewrite (lookup_alloc _ _ _ _ _ Hn). by rewrite decide_True.
      - simpl. apply elem_of_app. right. by apply list_elem_of_singleton. }
    assert (Hnew : h' !! length (heap pr) = Some (Node.new name (Some c))).
    { unfold h'. rewrite (lookup_alloc _ _ _ _ _ Hn).
      rewrite decide_False by lia. by rewrite decide_True. }
    split; simpl; fold h'.
    + apply Hwf.
    + destruct (wf_root_parent _ Hwf) as (r & Hr & Hp).
      destruct (Hback _ _ Hr) as (r' & ? & E & _). exists r'.
      split; [done|congruence].
    + intros i m. unfold h'. rewrite (lookup_alloc _ _ _ _ _ Hn).
      repeat case_decide.
      * intros [= <-]. simpl. eapply wf_samples; eauto.
      * intros [= <-]. simpl. unfold INT64_MAX. lia.
      * by apply wf_samples.
    + intros i m x. unfold h'. rewrite (lookup_alloc _ _ _ _ _ Hn).
      fold h'. repeat case_decide; subst.
      * intros [= <-]. simpl. intros [Hx| ->%list_elem_of_singleton]%elem_of_app.
        -- destruct (wf_childs _ Hwf _ _ _ Hn Hx) as (? & cn & Hcn & Hpar).
           split; [done|]. destruct (Hback _ _ Hcn) as (cn' & ? & E & _).
           exists cn'. split; [done|congruence].
        -- split; [done|]. eauto.
      * intros [= <-]. simpl. intros Hx. by apply elem_of_nil in Hx.
      * intros Hm Hx.
        destruct (wf_childs _ Hwf _ _ _ Hm Hx) as (? & cn & Hcn & Hpar).
        split; [done|]. destruct (Hback _ _ Hcn) as (cn' & ? & E & _).
        exists cn'. split; [done|congruence].
    + intros i m. unfold h'. rewrite (lookup_alloc _ _ _ _ _ Hn).
      fold h'. repeat case_decide; subst.
      * intros _. exists (current_depth pr). auto.
      * intros _. exists (current_depth pr + 1). split; [done|lia].
      * intros Hm. destruct (wf_depths _ Hwf _ _ Hm) as (d & ? & ?). eauto.
    + done.
Qed.

Lemma pop_Ok pr pr' :
  pop pr = Ok pr' ->
  exists c n, current_node pr = Some c /\ heap pr !! c = Some n /\
    INT_MIN <= current_depth pr - 1 <= INT_MAX /\
    pr' = {| heap := heap pr; root := root pr;
             current_node := Node.parent n;
             current_depth := current_depth pr - 1 |}.
Proof.
  unfold pop. intros H. apply bind_Ok in H as (n & Hn & H).
  apply deref_Ok in Hn as (c & Hc & Hn).
  apply bind_Ok in H as (d & Hd & [= <-]).
  apply int_sub_Ok in Hd as [-> ?]. eauto 10.
Qed.

Lemma wf_pop pr pr' : wf pr -> pop pr = Ok pr' -> wf pr'.
Proof.
  intros Hwf H. apply pop_Ok in H as (c & n & Hc & Hn & Hd & ->).
  pose proof (wf_cursor _ Hwf) as Hcur. rewrite Hc in Hcur.
  split; simpl; try apply Hwf.
  inversion Hcur as [|p np c' d Hp Hnp Hin]; subst.
  - destruct (wf_root_parent _ Hwf) as (r & Hr & Hpar).
    assert (n = r) as -> by congruence. rewrite Hpar. lia.
  - destruct (wf_childs _ Hwf _ _ _ Hnp Hin) as (_ & cn & Hcn & Hpar).
    assert (n = cn) as -> by congruence. rewrite Hpar.
    by replace (d + 1 - 1) with d by lia.
Qed.

Lemma reachable_wf pr : reachable pr -> wf pr.
Proof.
  induction 1; eauto using wf_new, wf_push, wf_insert_sample, wf_pop.
Qed.

(** ** Totality of the operations on reachable states *)

Lemma find_child_total pr i n name :
  wf pr -> heap pr !! i = Some n ->
  exists r, Node.find_child (heap pr) (Node.childs n) name = Ok r.
Proof.
  intros Hwf Hn.
  assert (H : forall ch, ch ∈ Node.childs n -> is_Some (heap pr !! ch)).
  { intros ch Hin. destruct (wf_childs _ Hwf _ _ _ Hn Hin) as (_ & cn & -> & _).
    eauto. }
  induction (Node.childs n) as [|x chs IH]; simpl; [eauto|].
  destruct (H x) as [c ->]; [left|].
  destruct (String.eqb (Node.name c) name); [eauto|].
  apply IH. intros ch Hin. apply H. by right.
Qed.

Lemma push_total pr c name :
  wf pr -> current_node pr = Some c -> current_depth pr < INT_MAX ->
  exists pr', push pr name = Ok pr'.
Proof.
  intros Hwf Hc Hd.
  destruct (wf_cursor_lookup _ _ Hwf Hc) as (n & Hn).
  pose proof (wf_cursor_depth _ _ Hwf Hc) as Hr.
  destruct (find_child_total _ _ _ name Hwf Hn) as (r & Hf).
  unfold push, Node.get_child. rewrite Hc, Hn, Hf. simpl.
  rewrite int_add_in_range by (unfold INT_MIN; lia).
  destruct r; simpl; eauto.
Qed.

Lemma pop_total pr c :
  wf pr -> current_node pr = Some c -> exists pr', pop pr = Ok pr'.
Proof.
  intros Hwf Hc.
  destruct (wf_cursor_lookup _ _ Hwf Hc) as (n & Hn).
  pose proof (wf_cursor_depth _ _ Hwf Hc) as Hr.
  unfold pop. rewrite Hc, (deref_Some _ _ _ Hn). simpl.
  rewrite int_sub_in_range by (unfold INT_MIN; lia). simpl. eauto.
Qed.

(** ** Floating-point facts used below *)

Lemma f64_add_zero_l x :
  x <> S754_zero true -> f64_add f64_zero x = x.
Proof. by destruct x as [[]| | |]. Qed.

Lemma f64_add_zero_l_eq x :
  x <> S754_nan -> f64_eq (f64_add f64_zero x) x = true.
Proof.
  destruct x as [[]|[]| |[] m e]; simpl; try congruence; intros _;
    unfold f64_eq, SFeqb; simpl; try done;
    by rewrite Z.compare_refl, Pos.compare_cont_refl.
Qed.

Lemma shr_1_digits s :
  Zdigits2 (shr_m (shr_1 s)) = Z.max 0 (Zdigits2 (shr_m s) - 1).
Proof.
  destruct s as [[|[q|q|]|[q|q|]] r b]; cbn [shr_1 shr_m Zdigits2 digits2_pos];
    rewrite ?Pos2Z.inj_succ; lia.
Qed.

Lemma shr_1_nonneg s : 0 <= shr_m s -> 0 <= shr_m (shr_1 s).
Proof.
  destruct s as [[|[q|q|]|[q|q|]] r b]; simpl; lia.
Qed.

Lemma iter_shr_1_digits k s :
  Zdigits2 (shr_m (SpecFloat.iter_pos shr_1 k s)) = Z.max 0 (Zdigits2 (shr_m s) - Zpos k).
Proof.
  revert s. induction k as [k IH|k IH|]; intros s; simpl.
  - rewrite !IH, shr_1_digits. lia.
  - rewrite !IH. lia.
  - apply shr_1_digits.
Qed.

Lemma iter_shr_1_nonneg k s :
  0 <= shr_m s -> 0 <= shr_m (SpecFloat.iter_pos shr_1 k s).
Proof.
  revert s. induction k as [k IH|k IH|]; intros s H; simpl.
  - apply IH, IH. by apply shr_1_nonneg.
  - by apply IH, IH.
  - by apply shr_1_nonneg.
Qed.

Lemma Zdigits2_Zpos z : 0 <= z -> 0 < Zdigits2 z -> exists q, z = Zpos q.
Proof. destruct z as [|q|q]; simpl; [lia|eauto|lia]. Qed.

Lemma digits2_pos_bounds q :
  2 ^ (Zpos (digits2_pos q) - 1) <= Zpos q < 2 ^ Zpos (digits2_pos q).
Proof.
  induction q as [q IH|q IH|]; simpl digits2_pos; rewrite ?Pos2Z.inj_succ.
  - replace (Z.succ (Zpos (digits2_pos q)) - 1) with (Z.succ (Zpos (digits2_pos q) - 1)) by lia.
    rewrite !Z.pow_succ_r by lia. lia.
  - replace (Z.succ (Zpos (digits2_pos q)) - 1) with (Z.succ (Zpos (digits2_pos q) - 1)) by lia.
    rewrite !Z.pow_succ_r by lia. lia.
  - simpl. lia.
Qed.

Lemma digits2_pos_le q b : 0 <= b -> Zpos q < 2 ^ b -> Zpos (digits2_pos q) <= b.
Proof.
  intros Hb H. destruct (digits2_pos_bounds q) as [Hlo _].
  destruct (Z.le_gt_cases (Zpos (digits2_pos q)) b) as [|Hgt]; [done|].
  assert (2 ^ b <= 2 ^ (Zpos (digits2_pos q) - 1)) by (apply Z.pow_le_mono_r; lia).
  lia.
Qed.

Lemma digits2_pos_ge q a : 2 ^ (a - 1) <= Zpos q -> a <= Zpos (digits2_pos q).
Proof.
  intros H. destruct (digits2_pos_bounds q) as [_ Hhi].
  destruct (Z.le_gt_cases a (Zpos (digits2_pos q))) as [|Hgt]; [done|].
  assert (2 ^ Zpos (digits2_pos q) <= 2 ^ (a - 1)) by (apply Z.pow_le_mono_r; lia).
  lia.
Qed.

Lemma digits2_pos_iter_xO q k :
  digits2_pos (Pos.iter xO q k) = (digits2_pos q + k)%positive.
Proof.
  induction k as [|k IH] using Pos.peano_ind.
  - simpl. by rewrite Pos.add_1_r.
  - rewrite Pos.iter_succ. simpl. by rewrite IH, Pos.add_succ_r.
Qed.

(** Rounding a positive significand whose magnitude lies in the normal range
    gives a finite number of the same sign. *)
Lemma binary_round_aux_finite sx q ex :
  -1021 <= Zpos (digits2_pos q) + ex <= 1023 -> ex <= 971 ->
  exists m e, binary_round_aux 53 1024 sx (Zpos q) ex loc_Exact = S754_finite sx m e.
Proof.
  intros Hd Hex. set (d := Zpos (digits2_pos q) + ex) in *.
  unfold binary_round_aux.
  assert (Hfexp : forall x, -1021 <= x -> fexp 53 1024 x = x - 53).
  { intros x Hx. unfold fexp, emin. lia. }
  (* first shift *)
  destruct (shr_fexp 53 1024 (Zpos q) ex loc_Exact) as [mrs' e'] eqn:E1.
  assert (H1 : 0 <= shr_m mrs' /\ 0 < Zdigits2 (shr_m mrs') <= 53 /\
               Zdigits2 (shr_m mrs') + e' = d /\ e' <= 971).
  { unfold shr_fexp, shr in E1. cbn [Zdigits2] in E1. fold d in E1.
    rewrite Hfexp in E1 by lia.
    destruct (d - 53 - ex) as [|k|k] eqn:En; injection E1 as <- <-;
      cbn [shr_record_of_loc shr_m].
    - cbn [Zdigits2]. lia.
    - split; [by apply iter_shr_1_nonneg|]. rewrite iter_shr_1_digits.
      cbn [shr_m Zdigits2]. lia.
    - cbn [Zdigits2]. lia. }
  destruct H1 as (Hnn & [Hpos Hle] & Hsum & He').
  set (m1 := shr_m mrs') in *.
  set (m2 := round_nearest_even m1 (loc_of_shr_record mrs')).
  assert (Hm2 : m1 <= m2 <= m1 + 1).
  { unfold m2, round_nearest_even. destruct (loc_of_shr_record mrs') as [|[]]; try lia.
    destruct (Z.even m1); lia. }
  destruct (Zdigits2_Zpos m1 Hnn Hpos) as (q1 & Hq1).
  assert (exists q2, m2 = Zpos q2) as (q2 & Hq2).
  { destruct m2; [lia|eauto|lia]. }
  assert (Hd2 : Zdigits2 m1 <= Zdigits2 m2 <= Zdigits2 m1 + 1).
  { rewrite Hq1, Hq2 in *. cbn [Zdigits2] in *.
    destruct (digits2_pos_bounds q1) as [Hlo Hhi].
    split.
    - apply digits2_pos_ge. lia.
    - apply digits2_pos_le; [lia|].
      rewrite Z.pow_add_r, Z.pow_1_r by lia. lia. }
  destruct (shr_fexp 53 1024 m2 e' loc_Exact) as [mrs'' e''] eqn:E2.
  assert (H2 : 0 <= shr_m mrs'' /\ 0 < Zdigits2 (shr_m mrs'') /\ e'' <= 971).
  { unfold shr_fexp, shr in E2.
    rewrite Hfexp in E2 by lia.
    destruct (Zdigits2 m2 + e' - 53 - e') as [|k|k] eqn:En; injection E2 as <- <-;
      cbn [shr_record_of_loc shr_m].
    - lia.
    - split; [apply iter_shr_1_nonneg; cbn [shr_m]; lia|].
      rewrite iter_shr_1_digits. cbn [shr_m]. lia.
    - lia. }
  destruct H2 as (Hnn2 & Hpos2 & He2).
  destruct (Zdigits2_Zpos _ Hnn2 Hpos2) as (q3 & ->).
  replace (e'' <=? 1024 - 53) with true by (symmetry; apply Z.leb_le; lia).
  eauto.
Qed.

(** The conversion of a positive [int64] is a positive finite number; in
    particular it is not a zero. *)
Lemma f64_of_int_finite k :
  1 <= k <= INT64_MAX ->
  exists m e, f64_of_int k = S754_finite false m e.
Proof.
  unfold INT64_MAX. intros Hk. destruct k as [|p|p]; [lia| |lia].
  unfold f64_of_int, binary_normalize, binary_round.
  assert (Hd : 1 <= Zpos (digits2_pos p) <= 63).
  { split; [lia|]. apply digits2_pos_le; lia. }
  destruct (shl_align p 0 _) as [mz ez] eqn:E.
  unfold shl_align, fexp, emin in E.
  apply binary_round_aux_finite.
  - destruct (_ - 0) as [|k|k] eqn:En in E; injection E as <- <-; try lia.
    rewrite digits2_pos_iter_xO. lia.
  - destruct (_ - 0) as [|k|k] eqn:En in E; injection E as <- <-; lia.
Qed.

(** ** The properties *)

(** C10.  [pop] does not check that the cursor is below the root.  In a
    reachable state whose cursor is the root, the depth is 0 and [pop]
    returns normally, leaving the null parent of the root as the cursor and
    the depth at -1; every later [push], [insert_sample] or [pop] then
    dereferences the null cursor. *)
Theorem C10_pop_at_root_is_unchecked pr :
  reachable pr -> current_node pr = Some (root pr) ->
  current_depth pr = 0 /\
  exists pr',
    pop pr = Ok pr' /\
    current_node pr' = None /\ current_depth pr' = -1 /\
    heap pr' = heap pr /\
    (forall name, push pr' name = Fault NullDereference) /\
    (forall time, insert_sample pr' time = Fault NullDereference) /\
    pop pr' = Fault NullDereference.
Proof.
  intros Hr Hc. apply reachable_wf in Hr as Hwf.
  pose proof (wf_cursor_at_root _ Hwf Hc) as Hd. split; [done|].
  destruct (pop_total _ _ Hwf Hc) as (pr' & Hpop). exists pr'.
  split; [done|].
  apply pop_Ok in Hpop as (c & n & Hc' & Hn & _ & ->). simpl.
  destruct (wf_root_parent _ Hwf) as (r & Hroot & Hpar).
  assert (n = r) as ->.
  { rewrite Hc, (wf_root _ Hwf) in Hc'. congruence. }
  rewrite Hpar, Hd. unfold push, insert_sample, pop. simpl. auto 10.
Qed.

Lemma C10_pop_at_root_is_unchecked_witness :
  current_depth new = 0 /\
  exists pr',
    pop new = Ok pr' /\
    current_node pr' = None /\ current_depth pr' = -1 /\
    heap pr' = heap new /\
    (forall name, push pr' name = Fault NullDereference) /\
    (forall time, insert_sample pr' time = Fault NullDereference) /\
    pop pr' = Fault NullDereference.
Proof.
  apply (C10_pop_at_root_is_unchecked new); [apply reach_new | reflexivity].
Defined.

(** What [get_child] does when the name is new. *)
Lemma get_child_fresh (h : list Node.t) (this : nat) (name : string) n :
  h !! this = Some n -> absent h n name ->
  exists h',
    Node.get_child h this name = Ok (length h, h') /\
    h' !! length h = Some (Node.new name (Some this)) /\
    h' !! this = Some (Node.push_back n (length h)) /\
    length h' = S (length h) /\
    forall i, i <> this -> i <> length h -> h' !! i = h !! i.
Proof.
  intros Hn Habs. pose proof (lookup_lt_Some _ _ _ Hn) as Hlt.
  eexists. split; [|split; [|split; [|split]]].
  - unfold Node.get_child. rewrite Hn.
    by rewrite (find_child_absent _ _ _ Habs).
  - rewrite (lookup_alloc _ _ _ _ _ Hn).
    rewrite decide_False by lia. by rewrite decide_True.
  - rewrite (lookup_alloc _ _ _ _ _ Hn). by rewrite decide_True.
  - rewrite length_app, length_insert. simpl. lia.
  - intros i H1 H2. rewrite (lookup_alloc _ _ _ _ _ Hn).
    by rewrite !decide_False.
Qed.

(** C5.  [get_child] is an idempotent lookup: a second call with the same
    name on the same node returns the same node and leaves the arena as the
    first call left it.  When no child has the name, the call allocates a
    node with [total_time] 0 and [num_samples] 1 whose parent is [this],
    appends it to the end of [this->childs], returns it, and changes nothing
    else. *)
Theorem C5_get_child_idempotent (h : list Node.t) (this : nat) (name : string) :
  (forall ch h',
     Node.get_child h this name = Ok (ch, h') ->
     Node.get_child h' this name = Ok (ch, h')) /\
  (forall n,
     h !! this = Some n -> absent h n name ->
     exists h',
       Node.get_child h this name = Ok (length h, h') /\
       h' !! length h =
         Some {| Node.childs := []; Node.parent := Some this;
                 Node.name := name; Node.total_time := f64_zero;
                 Node.num_samples := 1 |} /\
       h' !! this =
         Some {| Node.childs := Node.childs n ++ [length h];
                 Node.parent := Node.parent n; Node.name := Node.name n;
                 Node.total_time := Node.total_time n;
                 Node.num_samples := Node.num_samples n |} /\
       length h' = S (length h) /\
       forall i, i <> this -> i <> length h -> h' !! i = h !! i).
Proof.
  split.
  - intros ch h' Hg.
    apply get_child_Ok in Hg as (n & Hn & [[Hf ->]|(Hf & -> & ->)]).
    + unfold Node.get_child. by rewrite Hn, Hf.
    + pose proof (lookup_lt_Some _ _ _ Hn) as Hlt.
      set (h' := <[this := Node.push_back n (length h)]> h
                   ++ [Node.new name (Some this)]).
      assert (Hthis : h' !! this = Some (Node.push_back n (length h))).
      { unfold h'. rewrite (lookup_alloc _ _ _ _ _ Hn). by rewrite decide_True. }
      assert (Hnew : h' !! length h = Some (Node.new name (Some this))).
      { unfold h'. rewrite (lookup_alloc _ _ _ _ _ Hn).
        rewrite decide_False by lia. by rewrite decide_True. }
      unfold Node.get_child. rewrite Hthis. simpl.
      erewrite find_child_app_found; [done| |exact Hnew|done].
      apply find_child_absent. intros ch Hin.
      destruct (find_child_None _ _ _ Hf _ Hin) as (c & Hc & Hne).
      pose proof (lookup_lt_Some _ _ _ Hc).
      unfold h'. rewrite (lookup_alloc _ _ _ _ _ Hn).
      destruct (decide (ch = this)) as [->|].
      * assert (c = n) as -> by congruence. eauto.
      * rewrite decide_False by lia. eauto.
  - intros n Hn Habs. exact (get_child_fresh h this name n Hn Habs).
Qed.

Lemma C5_get_child_idempotent_witness :
  exists h',
    Node.get_child (heap new) 0%nat "A" = Ok (1%nat, h') /\
    Node.get_child h' 0%nat "A" = Ok (1%nat, h').
Proof.
  destruct (C5_get_child_idempotent (heap new) 0%nat "A") as [Hsame Hfresh].
  destruct (Hfresh (Node.new "[Taichi Profiler]" None) eq_refl)
    as (h' & Hg & _).
  { intros ch Hin. simpl in Hin. by apply elem_of_nil in Hin. }
  exists h'. split; [exact Hg | exact (Hsame _ _ Hg)].
Defined.

(** C4.  A region that is opened under a name the cursor has no child for,
    encloses no other region and is stopped once: the node it pushed ends
    with [num_samples] 2 and no children, and its [total_time] is the
    elapsed time [now - start_time], equal in the sense of C++ [==]
    whenever the elapsed time is a number, and the very same [float64]
    unless the elapsed time is the negative zero (which 0.0 + -0.0 turns
    into the positive zero). *)
Theorem C4_single_region_sample pr c n name t_start t_stop :
  reachable pr -> current_node pr = Some c -> heap pr !! c = Some n ->
  absent (heap pr) n name -> current_depth pr < INT_MAX ->
  let elapsed := f64_sub t_stop t_start in
  let fresh := length (heap pr) in
  exists p pr1 pr2 node,
    Profiler.new t_start name pr = Ok (p, pr1) /\
    current_node pr1 = Some fresh /\
    Profiler.stop t_stop p pr1 = Ok (p, pr2) /\
    current_node pr2 = Some c /\
    heap pr2 !! fresh = Some node /\
    Node.name node = name /\
    Node.childs node = [] /\
    Node.num_samples node = 2 /\
    (elapsed <> S754_nan -> f64_eq (Node.total_time node) elapsed = true) /\
    (elapsed <> S754_zero true -> Node.total_time node = elapsed).
Proof.
  intros Hr Hc Hn Habs Hd elapsed fresh. subst fresh.
  apply reachable_wf in Hr as Hwf.
  pose proof (wf_cursor_depth _ _ Hwf Hc) as Hrange.
  pose proof (lookup_lt_Some _ _ _ Hn) as Hlt.
  destruct (get_child_fresh (heap pr) c name n Hn Habs)
    as (h' & Hg & Hnew & Hthis & Hlen & _).
  unfold Profiler.new, push. rewrite Hc, Hg. simpl.
  rewrite int_add_in_range by (unfold INT_MIN; lia). simpl.
  do 2 eexists.
  exists {| heap := <[length (heap pr) := {| Node.childs := []; Node.parent := Some c;
                                  Node.name := name;
                                  Node.total_time := f64_add f64_zero elapsed;
                                  Node.num_samples := 2 |}]> h';
            root := root pr; current_node := Some c;
            current_depth := current_depth pr |}.
  eexists. split; [reflexivity|]. simpl. split; [done|].
  assert (Hfl : (length (heap pr) < length h')%nat) by lia.
  split; [|split; [done|]].
  - unfold Profiler.stop, insert_sample, pop. simpl. rewrite Hnew.
    simpl.
    rewrite list_lookup_insert_eq by done. simpl.
    rewrite int_sub_in_range by (unfold INT_MIN; lia). simpl.
    by replace (current_depth pr + 1 - 1) with (current_depth pr) by lia.
  - rewrite list_lookup_insert_eq by done.
    split; [reflexivity|]. simpl. repeat split.
    + apply f64_add_zero_l_eq.
    + apply f64_add_zero_l.
Qed.

Lemma C4_single_region_sample_witness :
  let elapsed := f64_sub (f64_of_int 1) (f64_of_int 0) in
  let fresh := length (heap new) in
  exists p pr1 pr2 node,
    Profiler.new (f64_of_int 0) "A" new = Ok (p, pr1) /\
    current_node pr1 = Some fresh /\
    Profiler.stop (f64_of_int 1) p pr1 = Ok (p, pr2) /\
    current_node pr2 = Some 0%nat /\
    heap pr2 !! fresh = Some node /\
    Node.name node = "A" /\
    Node.childs node = [] /\
    Node.num_samples node = 2 /\
    (elapsed <> S754_nan -> f64_eq (Node.total_time node) elapsed = true) /\
    (elapsed <> S754_zero true -> Node.total_time node = elapsed).
Proof.
  apply (C4_single_region_sample new 0%nat (Node.new "[Taichi Profiler]" None)
           "A" (f64_of_int 0) (f64_of_int 1)).
  - apply reach_new.
  - reflexivity.
  - reflexivity.
  - intros ch Hin. simpl in Hin. by apply elem_of_nil in Hin.
  - reflexivity.
Defined.

(** [stop] returns the handle with [stopped] as it found it. *)
Lemma Profiler_stop_keeps_handle now p pr p' pr' :
  Profiler.stop now p pr = Ok (p', pr') ->
  p' = p /\ Profiler.stopped p = false.
Proof.
  unfold Profiler.stop. destruct (Profiler.stopped p); [discriminate|].
  simpl. intros H. apply bind_Ok in H as (pr1 & _ & H).
  apply bind_Ok in H as (pr2 & _ & [= <- <-]). done.
Qed.

(** The destructor of a handle that is not marked stopped is [stop]. *)
Lemma Profiler_destroy_unstopped now p pr :
  Profiler.stopped p = false ->
  Profiler.destroy now p pr = (let* '(_, pr') := Profiler.stop now p pr in Ok pr').
Proof. unfold Profiler.destroy. by intros ->. Qed.

(** C1 (the code departs from it).  [stop] asserts [!stopped] but never
    sets [stopped]: on the handle of a region just opened on fresh records,
    the first [stop] returns, and so does the second one, which is not
    rejected; it inserts its sample at the root and pops the cursor off the
    tree. *)
Theorem C1_second_stop_is_not_rejected :
  exists p pr1 pr2 pr3 r,
    Profiler.new (f64_of_int 0) "A" new = Ok (p, pr1) /\
    Profiler.stop (f64_of_int 1) p pr1 = Ok (p, pr2) /\
    Profiler.stopped p = false /\
    Profiler.stop (f64_of_int 2) p pr2 = Ok (p, pr3) /\
    current_node pr2 = Some (root pr2) /\
    current_node pr3 = None /\ current_depth pr3 = -1 /\
    heap pr3 !! root pr3 = Some r /\ Node.num_samples r = 2.
Proof. do 5 eexists. repeat split; reflexivity. Qed.

(** C2 (the code departs from it).  After an explicit [stop] the handle is
    still not marked stopped, so its destructor runs [stop] once more: on
    fresh records, the destructor that follows the explicit [stop] of a
    region inserts a second sample (at the root, whose [num_samples] goes
    from 1 to 2) and pops a second time (the cursor becomes null and the
    depth -1).  The destructor of a handle that was never stopped performs
    the one [stop]. *)
Theorem C2_destructor_stops_again :
  exists p pr1 pr2 pr3 r2 r3,
    Profiler.new (f64_of_int 0) "A" new = Ok (p, pr1) /\
    Profiler.stop (f64_of_int 1) p pr1 = Ok (p, pr2) /\
    Profiler.destroy (f64_of_int 2) p pr2 = Ok pr3 /\
    current_node pr2 = Some (root pr2) /\ current_depth pr2 = 0 /\
    heap pr2 !! root pr2 = Some r2 /\ Node.num_samples r2 = 1 /\
    current_node pr3 = None /\ current_depth pr3 = -1 /\
    heap pr3 !! root pr3 = Some r3 /\ Node.num_samples r3 = 2 /\
    Profiler.destroy (f64_of_int 1) p pr1 = Ok pr2.
Proof. do 6 eexists. repeat split; reflexivity. Qed.

(** C6.  In every reachable state every node has [num_samples >= 1]: the
    guard [std::max(num_samples, 1LL)] of [get_averaged] never replaces the
    count, the average is [total_time / (float64) num_samples], and the
    divisor is a positive finite number, never a zero. *)
Theorem C6_average_is_total_over_samples pr i n :
  reachable pr -> heap pr !! i = Some n ->
  1 <= Node.num_samples n /\
  Z.max (Node.num_samples n) 1 = Node.num_samples n /\
  Node.get_averaged n =
    f64_div (Node.total_time n) (f64_of_int (Node.num_samples n)) /\
  exists m e,
    f64_of_int (Z.max (Node.num_samples n) 1) = S754_finite false m e.
Proof.
  intros Hr Hn. apply reachable_wf in Hr.
  pose proof (wf_samples _ Hr _ _ Hn) as Hs.
  assert (Hmax : Z.max (Node.num_samples n) 1 = Node.num_samples n) by lia.
  unfold Node.get_averaged. rewrite Hmax.
  repeat split; [lia|]. by apply f64_of_int_finite.
Qed.

Lemma C6_average_is_total_over_samples_witness :
  let n := Node.new "[Taichi Profiler]" None in
  1 <= Node.num_samples n /\
  Z.max (Node.num_samples n) 1 = Node.num_samples n /\
  Node.get_averaged n =
    f64_div (Node.total_time n) (f64_of_int (Node.num_samples n)) /\
  exists m e,
    f64_of_int (Z.max (Node.num_samples n) 1) = S754_finite false m e.
Proof.
  apply (C6_average_is_total_over_samples new 0%nat); [apply reach_new | reflexivity].
Defined.

(** ** Runs of nested regions *)

Lemma stable_refl pr : stable pr pr.
Proof. intros i n Hn. eauto. Qed.

Lemma stable_trans pr1 pr2 pr3 : stable pr1 pr2 -> stable pr2 pr3 -> stable pr1 pr3.
Proof.
  intros H12 H23 i n Hn. destruct (H12 _ _ Hn) as (n2 & Hn2 & E2).
  destruct (H23 _ _ Hn2) as (n3 & Hn3 & E3). exists n3. split; [done|congruence].
Qed.

(** Induction over a region and, inside it, over the regions of its body. *)
Lemma region_nested_ind (P : region -> Prop) :
  (forall name t_begin t_end body,
     Forall P body -> P (Region name t_begin t_end body)) ->
  forall r, P r.
Proof.
  intros H. fix IH 1. intros [name t_begin t_end body]. apply H.
  induction body as [|r body IHbody]; constructor; [apply IH | exact IHbody].
Qed.

Lemma regions_body_nonneg body :
  Forall (fun r => 1 <= regions r) body ->
  0 <= fold_right (fun r acc => regions r + acc) 0 body.
Proof. induction 1; simpl; lia. Qed.

Lemma regions_pos r : 1 <= regions r.
Proof.
  induction r as [name t_begin t_end body IH] using region_nested_ind.
  simpl. apply regions_body_nonneg in IH. lia.
Qed.

Lemma nesting_body_nonneg body :
  0 <= fold_right (fun r acc => Z.max (nesting r) acc) 0 body.
Proof. induction body; simpl; lia. Qed.

(** One constructor call on a reachable-shaped state. *)
Lemma push_step pr c name k :
  wf pr -> current_node pr = Some c -> current_depth pr < INT_MAX ->
  0 <= k -> headroom pr k ->
  exists pr' ch cn,
    push pr name = Ok pr' /\ wf pr' /\
    current_node pr' = Some ch /\ heap pr' !! ch = Some cn /\
    Node.parent cn = Some c /\
    current_depth pr' = current_depth pr + 1 /\
    headroom pr' k /\ stable pr pr'.
Proof.
  intros Hwf Hc Hd Hk Hh.
  destruct (push_total _ _ name Hwf Hc Hd) as (pr' & Hpush).
  pose proof (wf_push _ _ _ Hwf Hpush) as Hwf'.
  apply push_Ok in Hpush as Hp.
  destruct Hp as (c' & ch & h & Hc' & Hg & _ & ->).
  assert (c' = c) as -> by congruence.
  exists {| heap := h; root := root pr; current_node := Some ch;
            current_depth := current_depth pr + 1 |}, ch.
  apply get_child_Ok in Hg as (n & Hn & [[Hf ->]|(Hf & -> & ->)]).
  - apply find_child_Some in Hf as (Hin & _).
    destruct (wf_childs _ Hwf _ _ _ Hn Hin) as (_ & cn & Hcn & Hpar).
    exists cn. simpl. split_and!; try done. intros i m Hm. eauto.
  - exists (Node.new name (Some c)). simpl.
    pose proof (lookup_lt_Some _ _ _ Hn) as Hlt.
    split_and!; try done.
    + rewrite (lookup_alloc _ _ _ _ _ Hn).
      rewrite decide_False by lia. by rewrite decide_True.
    + intros i m. simpl. rewrite (lookup_alloc _ _ _ _ _ Hn).
      repeat case_decide.
      * intros [= <-]. simpl. by eapply Hh.
      * intros [= <-]. simpl.
        pose proof (wf_samples _ Hwf _ _ Hn). pose proof (Hh _ _ Hn). lia.
      * apply Hh.
    + intros i m Hm. simpl. rewrite (lookup_alloc _ _ _ _ _ Hn).
      pose proof (lookup_lt_Some _ _ _ Hm).
      destruct (decide (i = c)) as [->|].
      * assert (m = n) as -> by congruence. eauto.
      * rewrite decide_False by lia. eauto.
Qed.

(** One [stop] call with the cursor on a node below [c]. *)
Lemma stop_step pr ch cn c k p now :
  wf pr -> current_node pr = Some ch -> heap pr !! ch = Some cn ->
  Node.parent cn = Some c -> 0 <= k -> headroom pr (1 + k) ->
  Profiler.stopped p = false ->
  exists pr',
    Profiler.stop now p pr = Ok (p, pr') /\ wf pr' /\
    current_node pr' = Some c /\
    current_depth pr' = current_depth pr - 1 /\
    headroom pr' k /\ stable pr pr'.
Proof.
  intros Hwf Hc Hcn Hpar Hk Hh Hp.
  pose proof (wf_cursor_depth _ _ Hwf Hc) as Hr.
  pose proof (lookup_lt_Some _ _ _ Hcn) as Hlt.
  set (x := f64_sub now (Profiler.start_time p)).
  set (cn' := {| Node.childs := Node.childs cn; Node.parent := Node.parent cn;
                 Node.name := Node.name cn;
                 Node.total_time := f64_add (Node.total_time cn) x;
                 Node.num_samples := Node.num_samples cn + 1 |}).
  set (pri := {| heap := <[ch := cn']> (heap pr); root := root pr;
                 current_node := Some ch;
                 current_depth := current_depth pr |}).
  assert (Hins : insert_sample pr x = Ok pri).
  { unfold insert_sample. rewrite Hc, (deref_Some _ _ _ Hcn). simpl.
    unfold Node.insert_sample.
    rewrite decide_True by (pose proof (Hh _ _ Hcn); lia). done. }
  pose proof (wf_insert_sample _ _ _ Hwf Hins) as Hwfi.
  set (pr' := {| heap := heap pri; root := root pri; current_node := Some c;
                 current_depth := current_depth pr - 1 |}).
  assert (Hpop : pop pri = Ok pr').
  { unfold pop. simpl.
    rewrite list_lookup_insert_eq by done. simpl.
    rewrite int_sub_in_range by (unfold INT_MIN; lia). simpl.
    unfold pr'. simpl. by rewrite Hpar. }
  exists pr'. split; [|split; [by eapply wf_pop|]].
  - unfold Profiler.stop. rewrite Hp. simpl. fold x. rewrite Hins. simpl.
    by rewrite Hpop.
  - split_and!; try done.
    + intros i m. simpl. destruct (decide (ch = i)) as [<-|Hne].
      * rewrite list_lookup_insert_eq by done. intros [= <-]. simpl.
        pose proof (Hh _ _ Hcn). lia.
      * rewrite list_lookup_insert_ne by done. intros Hm.
        pose proof (Hh _ _ Hm). lia.
    + intros i m Hm. simpl. destruct (decide (ch = i)) as [<-|Hne].
      * rewrite list_lookup_insert_eq by done.
        assert (m = cn) as -> by congruence. eauto.
      * rewrite list_lookup_insert_ne by done. eauto.
Qed.

Lemma last_cons_default {A : Type} (a : A) l d :
  List.last (a :: l) d = List.last l a.
Proof.
  revert a d. induction l as [|b l IH]; intros a d; [done|].
  change (List.last (a :: b :: l) d) with (List.last (b :: l) d).
  by rewrite (IH b d), (IH b a).
Qed.

Lemma last_app_default {A : Type} (l l' : list A) d :
  List.last (l ++ l') d = List.last l' (List.last l d).
Proof.
  revert d. induction l as [|a l IH]; intros d; [done|].
  change ((a :: l) ++ l') with (a :: (l ++ l')).
  by rewrite !last_cons_default, IH.
Qed.

Lemma run_region_unfold name t_begin t_end body pr :
  run_region (Region name t_begin t_end body) pr =
    (let* '(p, pr1) := Profiler.new t_begin name pr in
     let* tr := run_body body pr1 in
     let* '(_, pr2) := Profiler.stop t_end p (List.last tr pr1) in
     Ok (pr1 :: tr ++ [pr2])).
Proof. reflexivity. Qed.

Lemma run_body_cons r rs pr :
  run_body (r :: rs) pr =
    (let* tr := run_region r pr in
     let* tr' := run_body rs (List.last tr pr) in
     Ok (tr ++ tr')).
Proof. reflexivity. Qed.

Lemma run_body_ok body :
  Forall region_ok body ->
  forall pr c k,
    wf pr -> current_node pr = Some c ->
    current_depth pr
      + fold_right (fun r acc => Z.max (nesting r) acc) 0 body <= INT_MAX ->
    0 <= k ->
    headroom pr (fold_right (fun r acc => regions r + acc) 0 body + k) ->
    exists tr,
      run_body body pr = Ok tr /\
      wf (List.last tr pr) /\ current_node (List.last tr pr) = Some c /\
      current_depth (List.last tr pr) = current_depth pr /\
      headroom (List.last tr pr) k /\ stable pr (List.last tr pr) /\
      Forall (fun s => wf s /\ current_depth pr <= current_depth s) tr.
Proof.
  induction 1 as [|r body Hr Hbody IH]; intros pr c k Hwf Hc Hd Hk Hh.
  - exists []. simpl in *. split_and!; try done. apply stable_refl.
  - cbn [fold_right] in Hd, Hh.
    set (rest := fold_right (fun r acc => regions r + acc) 0 body) in *.
    assert (Hrest : 0 <= rest).
    { apply regions_body_nonneg, Forall_forall. intros x _. apply regions_pos. }
    pose proof (nesting_body_nonneg body) as Hnest.
    destruct (Hr pr c (rest + k) Hwf Hc) as
      (tr & pr' & Hrun & Hwf' & Hc' & Hd' & Hh' & Hst & Htr);
      [lia | lia | by rewrite Z.add_assoc |].
    destruct (IH pr' c k Hwf' Hc') as
      (tr' & Hrun' & Hwf'' & Hc'' & Hd'' & Hh'' & Hst' & Htr');
      [lia | done | done |].
    exists ((tr ++ [pr']) ++ tr').
    rewrite run_body_cons, Hrun. simpl.
    rewrite last_app_default. simpl. rewrite Hrun'. simpl.
    rewrite !last_app_default. simpl.
    split_and!; try done.
    + lia.
    + by eapply stable_trans.
    + apply Forall_app. split; [apply Forall_app; split|].
      * eapply Forall_impl; [exact Htr|]. simpl. intros s [? ?]. split; [done|lia].
      * constructor; [|done]. split; [done|lia].
      * eapply Forall_impl; [exact Htr'|]. simpl. intros s [? ?]. split; [done|lia].
Qed.

Lemma run_region_ok r : region_ok r.
Proof.
  induction r as [name t_begin t_end body IH] using region_nested_ind.
  intros pr c k Hwf Hc Hd Hk Hh. cbn [nesting regions] in Hd, Hh.
  set (rest := fold_right (fun r acc => regions r + acc) 0 body) in *.
  assert (Hrest : 0 <= rest).
  { apply regions_body_nonneg, Forall_forall. intros x _. apply regions_pos. }
  pose proof (nesting_body_nonneg body) as Hnest.
  destruct (push_step pr c name (1 + rest + k) Hwf Hc) as
    (pr1 & ch & cn & Hpush & Hwf1 & Hc1 & Hcn & Hpar & Hd1 & Hh1 & Hst1);
    [lia | lia | done |].
  destruct (run_body_ok body IH pr1 ch (1 + k) Hwf1 Hc1) as
    (tr & Hrun & Hwfb & Hcb & Hdb & Hhb & Hstb & Htr);
    [lia | lia | |].
  { intros i n Hn. pose proof (Hh1 _ _ Hn). lia. }
  destruct (Hstb _ _ Hcn) as (cn' & Hcn' & Hpar').
  destruct (stop_step (List.last tr pr1) ch cn' c k
              {| Profiler.start_time := t_begin; Profiler.name := name;
                 Profiler.stopped := false |} t_end Hwfb Hcb Hcn')
    as (pr2 & Hstop & Hwf2 & Hc2 & Hd2 & Hh2 & Hst2);
    [congruence | done | done | done |].
  exists (pr1 :: tr), pr2.
  rewrite run_region_unfold. unfold Profiler.new. rewrite Hpush. simpl.
  rewrite Hrun. simpl. rewrite Hstop. simpl.
  split_and!; try done.
  - lia.
  - eapply stable_trans; [exact Hst1|]. by eapply stable_trans.
  - constructor; [split; [done|lia]|].
    eapply Forall_impl; [exact Htr|]. simpl. intros s [? ?]. split; [done|lia].
Qed.

(** The trace lists one state for each call of the region. *)
Lemma run_body_length body :
  Forall (fun r => forall pr tr, run_region r pr = Ok tr -> length tr = calls r)
         body ->
  forall pr tr, run_body body pr = Ok tr ->
    length tr = list_sum (List.map calls body).
Proof.
  induction 1 as [|r body Hr Hbody IH]; intros pr tr.
  - by intros [= <-].
  - rewrite run_body_cons. intros H.
    apply bind_Ok in H as (tr1 & H1 & H). apply bind_Ok in H as (tr2 & H2 & H).
    injection H as <-. rewrite length_app. cbn [List.map list_sum].
    by rewrite (Hr _ _ H1), (IH _ _ H2).
Qed.

Lemma run_region_length r pr tr :
  run_region r pr = Ok tr -> length tr = calls r.
Proof.
  revert pr tr.
  induction r as [name t_begin t_end body IH] using region_nested_ind.
  intros pr tr. rewrite run_region_unfold. intros H.
  apply bind_Ok in H as ([p pr1] & _ & H).
  apply bind_Ok in H as (trb & Hb & H).
  apply bind_Ok in H as ([p' pr2] & _ & H). injection H as <-.
  cbn [length calls]. rewrite length_app. simpl.
  rewrite (run_body_length _ IH _ _ Hb). lia.
Qed.

(** C3.  Tree balance.  Run a properly nested region, starting with the
    cursor at the root of a reachable state in which the depth counter and
    the sample counters have room for the run.  Every call returns; after
    the last call, the [stop] of the outermost region, the cursor is the
    root again, and after every earlier call it is not. *)
Theorem C3_tree_balance pr r :
  reachable pr -> current_node pr = Some (root pr) ->
  nesting r <= INT_MAX -> headroom pr (regions r) ->
  exists tr pr',
    run_region r pr = Ok (tr ++ [pr']) /\
    S (length tr) = calls r /\
    current_node pr' = Some (root pr') /\
    Forall (fun s => current_node s <> Some (root s)) tr.
Proof.
  intros Hr Hc Hn Hh. apply reachable_wf in Hr as Hwf.
  pose proof (wf_cursor_at_root _ Hwf Hc) as Hd.
  destruct (run_region_ok r pr (root pr) 0 Hwf Hc) as
    (tr & pr' & Hrun & Hwf' & Hc' & _ & _ & _ & Htr);
    [lia | done | by rewrite Z.add_0_r |].
  exists tr, pr'. split; [done|]. split; [|split].
  - apply run_region_length in Hrun. rewrite length_app in Hrun. simpl in Hrun. lia.
  - by rewrite (wf_root _ Hwf'), <- (wf_root _ Hwf).
  - eapply Forall_impl; [exact Htr|]. simpl. intros s [Hs Hpos] Hcs.
    pose proof (wf_cursor_at_root _ Hs Hcs). lia.
Qed.

Lemma C3_tree_balance_witness :
  exists tr pr',
    run_region region_A_B new = Ok (tr ++ [pr']) /\
    S (length tr) = calls region_A_B /\
    current_node pr' = Some (root pr') /\
    Forall (fun s => current_node s <> Some (root s)) tr.
Proof.
  apply (C3_tree_balance new region_A_B).
  - apply reach_new.
  - reflexivity.
  - vm_compute. discriminate.
  - intros [|i] n; [|by destruct i]. intros [= <-]. vm_compute. discriminate.
Defined.

(** ** The report *)

Lemma make_indent_Ok depth additional out out' :
  make_indent depth additional out = Ok out' ->
  INT_MIN <= depth + additional <= INT_MAX /\
  out' = out ++ indent (depth + additional).
Proof.
  unfold make_indent. intros H. apply bind_Ok in H as (k & Hk & [= <-]).
  apply int_add_Ok in Hk as [-> ?]. done.
Qed.

Lemma make_indent_in_range depth additional out :
  INT_MIN <= depth + additional <= INT_MAX ->
  make_indent depth additional out = Ok (out ++ indent (depth + additional)).
Proof. intros H. unfold make_indent. by rewrite int_add_in_range. Qed.

Section PrintLoops.

Variable rec : nat -> Z -> state -> result state.
Variable pr : ProfilerRecords.t.

Hypothesis rec_shape :
  forall ch d out st',
    rec ch d (pr, out) = Ok st' ->
    exists o, st' = (pr, out ++ o) /\ rec_prints rec pr ch d o.

Lemma print_negligible_shape depth chs out st' :
  print_negligible rec depth chs (pr, out) = Ok st' ->
  exists blocks,
    st' = (pr, out ++ concat blocks) /\
    Forall2 (fun ch block =>
               exists c sub,
                 heap pr !! ch = Some c /\
                 block = indent (depth + 1)
                           ++ Printf ("%6.2f %s" ++ nl)%string
                                [ArgF (Node.get_averaged c);
                                 ArgS (Node.name c)] :: sub /\
                 rec_prints rec pr ch (depth + 1) sub)
            chs blocks /\
    forall out2,
      print_negligible rec depth chs (pr, out2) = Ok (pr, out2 ++ concat blocks).
Proof.
  revert out st'. induction chs as [|ch chs IH]; intros out st'.
  - intros [= <-]. exists []. simpl. rewrite app_nil_r.
    split_and!; [done|constructor|]. intros out2. by rewrite app_nil_r.
  - cbn [print_negligible]. intros H.
    apply bind_Ok in H as (out1 & Hi & H).
    apply make_indent_Ok in Hi as [Hrange ->].
    apply bind_Ok in H as (c & Hc & H).
    apply deref_Ok in Hc as (i & [= <-] & Hc).
    apply bind_Ok in H as (d & Hd & H). apply int_add_Ok in Hd as [-> _].
    apply bind_Ok in H as (st1 & Hrec & H).
    apply rec_shape in Hrec as (sub & -> & Hsub).
    apply IH in H as (blocks & -> & Hblocks & Hall).
    eexists ((indent (depth + 1) ++ _ :: sub) :: blocks).
    split_and!.
    + cbn [concat]. f_equal. by rewrite <- !app_assoc.
    + constructor; [|done]. eauto.
    + intros out2. cbn [print_negligible concat].
      rewrite make_indent_in_range by done. cbn [bind].
      rewrite (deref_Some _ _ _ Hc). cbn [bind].
      rewrite int_add_in_range by done. cbn [bind].
      rewrite Hsub. cbn [bind]. rewrite Hall. f_equal. f_equal.
      by rewrite <- !app_assoc.
Qed.

Lemma print_scaled_shape depth unit scale total chs out u st' u' :
  print_scaled rec depth unit scale total chs (pr, out) u = Ok (st', u') ->
  exists blocks,
    st' = (pr, out ++ concat blocks) /\
    u' = fold_left (fun u ch => f64_sub u (averaged_at (heap pr) ch)) chs u /\
    Forall2 (fun ch block =>
               exists c sub,
                 heap pr !! ch = Some c /\
                 block = indent (depth + 1)
                           ++ Printf ("%6.2f%s %4.1f%%  %s" ++ nl)%string
                                [ArgF (f64_mul (Node.get_averaged c) scale);
                                 ArgS unit;
                                 ArgF (f64_div
                                         (f64_mul (Node.get_averaged c) lit_100)
                                         total);
                                 ArgS (Node.name c)] :: sub /\
                 rec_prints rec pr ch (depth + 1) sub)
            chs blocks /\
    forall out2,
      print_scaled rec depth unit scale total chs (pr, out2) u
      = Ok ((pr, out2 ++ concat blocks), u').
Proof.
  revert out u st' u'. induction chs as [|ch chs IH]; intros out u st' u'.
  - intros [= <- <-]. exists []. simpl. rewrite app_nil_r.
    split_and!; [done|done|constructor|].
    intros out2. by rewrite app_nil_r.
  - cbn [print_scaled]. intros H.
    apply bind_Ok in H as (out1 & Hi & H).
    apply make_indent_Ok in Hi as [Hrange ->].
    apply bind_Ok in H as (c & Hc & H).
    apply deref_Ok in Hc as (i & [= <-] & Hc).
    apply bind_Ok in H as (d & Hd & H). apply int_add_Ok in Hd as [-> _].
    apply bind_Ok in H as (st1 & Hrec & H).
    apply rec_shape in Hrec as (sub & -> & Hsub).
    apply IH in H as (blocks & -> & -> & Hblocks & Hall).
    eexists ((indent (depth + 1) ++ _ :: sub) :: blocks).
    split_and!.
    + cbn [concat]. f_equal. by rewrite <- !app_assoc.
    + cbn [fold_left].
      assert (averaged_at (heap pr) ch = Node.get_averaged c) as ->; [|done].
      unfold averaged_at. by rewrite Hc.
    + constructor; [|done]. eauto.
    + intros out2. cbn [print_scaled concat].
      rewrite make_indent_in_range by done. cbn [bind].
      rewrite (deref_Some _ _ _ Hc). cbn [bind].
      rewrite int_add_in_range by done. cbn [bind].
      rewrite Hsub. cbn [bind]. rewrite Hall. f_equal. f_equal. f_equal.
      by rewrite <- !app_assoc.
Qed.

End PrintLoops.

Lemma unit_and_scale total :
  (if f64_lt total lit_0_1 then ("ms", f64_of_int 1000) else ("s", f64_of_int 1))
  = (unit_of total, scale_of total).
Proof. unfold unit_of, scale_of. by destruct (f64_lt total lit_0_1). Qed.

(** The first lines of [print]: the name of the root, at depth 0 only. *)
Lemma print_header depth (n : Node.t) out out1 :
  (if depth =? 0 then
     let* out := make_indent depth 0 out in
     Ok (out ++ [Printf ("%s" ++ nl)%string [ArgS (Node.name n)]])
   else Ok out) = Ok out1 ->
  out1 = out ++ header depth n /\
  forall out2,
    (if depth =? 0 then
       let* out := make_indent depth 0 out2 in
       Ok (out ++ [Printf ("%s" ++ nl)%string [ArgS (Node.name n)]])
     else Ok out2) = Ok (out2 ++ header depth n).
Proof.
  unfold header. destruct (depth =? 0) eqn:E.
  - apply Z.eqb_eq in E as ->. intros H.
    apply bind_Ok in H as (o & Ho & [= <-]).
    apply make_indent_Ok in Ho as [Hr ->]. simpl. rewrite app_nil_r.
    split; [done|]. intros out2. unfold make_indent. simpl.
    by rewrite app_nil_r.
  - intros [= <-]. rewrite app_nil_r. split; [done|].
    intros out2. by rewrite app_nil_r.
Qed.

(** One level of [print], given what the recursive calls do. *)
Lemma print_node_step fuel pr :
  (forall ch d out st',
     print_node fuel ch d (pr, out) = Ok st' ->
     exists o, st' = (pr, out ++ o) /\ prints fuel pr ch d o) ->
  forall node depth out st',
    print_node (S fuel) node depth (pr, out) = Ok st' ->
    exists n blocks,
      heap pr !! node = Some n /\
      st' = (pr, out ++ header depth n ++ concat blocks
                     ++ trailer (heap pr) depth n) /\
      prints (S fuel) pr node depth
             (header depth n ++ concat blocks ++ trailer (heap pr) depth n) /\
      Forall2 (fun ch block =>
                 exists c sub,
                   heap pr !! ch = Some c /\
                   block = indent (depth + 1)
                             ++ child_line (Node.get_averaged n) c :: sub /\
                   prints fuel pr ch (depth + 1) sub)
              (Node.childs n) blocks.
Proof.
  intros Hrec node depth out st' H. cbn [print_node] in H.
  apply bind_Ok in H as (n & Hn & H).
  apply deref_Ok in Hn as (i & [= <-] & Hn).
  apply bind_Ok in H as (out1 & Hh & H).
  apply print_header in Hh as [-> Hhdr].
  exists n. unfold trailer, unaccounted_shown, child_line, negligible.
  destruct (f64_lt (Node.get_averaged n) lit_1e_6f) eqn:Eneg.
  - apply (print_negligible_shape _ _ Hrec) in H
      as (blocks & -> & Hblocks & Hall).
    exists blocks. cbn [negb andb]. rewrite app_nil_r.
    split_and!; try done.
    + by rewrite <- app_assoc.
    + intros out2. cbn [print_node]. rewrite (deref_Some _ _ _ Hn). cbn [bind].
      rewrite Hhdr. cbn [bind]. rewrite Eneg, Hall.
      by rewrite <- app_assoc.
  - rewrite unit_and_scale in H.
    apply bind_Ok in H as ([[pr' out'] u'] & Hs & H).
    apply (print_scaled_shape _ _ Hrec) in Hs
      as (blocks & [= -> ->] & -> & Hblocks & Hall).
    exists blocks. cbn [negb andb]. fold (unaccounted (heap pr) n) in *.
    unfold unaccounted_claimed.
    assert (Hprints : forall tl out2,
      (if negb (bool_decide (Node.childs n = []))
          && f64_lt (f64_mul (Node.get_averaged n) lit_0_05)
                    (unaccounted (heap pr) n)
       then
         let* out := make_indent depth 1 (out2 ++ header depth n ++ concat blocks) in
         Ok (pr, out ++ [unaccounted_line (Node.get_averaged n)
                                          (unaccounted (heap pr) n)])
       else Ok (pr, out2 ++ header depth n ++ concat blocks)) = Ok (pr, tl) ->
      print_node (S fuel) node depth (pr, out2) = Ok (pr, tl)).
    { intros tl out2 Htl. cbn [print_node].
      rewrite (deref_Some _ _ _ Hn). cbn [bind].
      rewrite Hhdr. cbn [bind]. rewrite Eneg, unit_and_scale, Hall. cbn [bind].
      fold (unaccounted (heap pr) n). rewrite <- Htl, <- app_assoc. done. }
    destruct (negb (bool_decide (Node.childs n = []))
              && f64_lt (f64_mul (Node.get_averaged n) lit_0_05)
                        (unaccounted (heap pr) n)) eqn:Ecl.
    + apply bind_Ok in H as (out3 & Hi & [= <-]).
      apply make_indent_Ok in Hi as [Hr ->].
      split_and!; try done.
      * by rewrite <- !app_assoc.
      * intros out2. apply Hprints. rewrite make_indent_in_range by done.
        cbn [bind]. by rewrite <- !app_assoc.
    + injection H as <-. rewrite app_nil_r.
      split_and!; try done.
      * by rewrite <- !app_assoc.
      * intros out2. by apply Hprints.
Qed.

(** [print] leaves the records alone and only appends to the output, and
    what it appends does not depend on what was printed before. *)
Lemma print_node_Ok fuel pr node depth out st' :
  print_node fuel node depth (pr, out) = Ok st' ->
  exists o, st' = (pr, out ++ o) /\ prints fuel pr node depth o.
Proof.
  revert node depth out st'.
  induction fuel as [|fuel IH]; intros node depth out st' H; [discriminate|].
  apply (print_node_step _ _ IH) in H as (n & blocks & _ & -> & Hp & _).
  eauto.
Qed.

Section PrintLoopsTotal.

Variable rec : nat -> Z -> state -> result state.
Variable pr : ProfilerRecords.t.
Variable depth : Z.

Hypothesis rec_shape :
  forall ch d out st',
    rec ch d (pr, out) = Ok st' ->
    exists o, st' = (pr, out ++ o) /\ rec_prints rec pr ch d o.

(** The child can be printed one level down. *)
Let printable (ch : nat) : Prop :=
  INT_MIN <= depth + 1 <= INT_MAX /\
  is_Some (heap pr !! ch) /\
  forall out, exists st', rec ch (depth + 1) (pr, out) = Ok st'.

Lemma print_negligible_total chs out :
  Forall printable chs ->
  exists st', print_negligible rec depth chs (pr, out) = Ok st'.
Proof.
  intros H. revert out. induction H as [|ch chs (Hr & [c Hc] & Hrec) _ IH];
    intros out; [simpl; eauto|].
  cbn [print_negligible]. rewrite make_indent_in_range by done. cbn [bind].
  rewrite (deref_Some _ _ _ Hc). cbn [bind].
  rewrite int_add_in_range by done. cbn [bind].
  destruct (Hrec (out ++ indent (depth + 1)
                    ++ [Printf ("%6.2f %s" ++ nl)%string
                          [ArgF (Node.get_averaged c); ArgS (Node.name c)]]))
    as (st1 & Hst1).
  rewrite <- app_assoc, Hst1. cbn [bind].
  apply rec_shape in Hst1 as (o & -> & _). apply IH.
Qed.

Lemma print_scaled_total unit scale total chs out u :
  Forall printable chs ->
  exists r, print_scaled rec depth unit scale total chs (pr, out) u = Ok r.
Proof.
  intros H. revert out u.
  induction H as [|ch chs (Hr & [c Hc] & Hrec) _ IH];
    intros out u; [simpl; eauto|].
  cbn [print_scaled]. rewrite make_indent_in_range by done. cbn [bind].
  rewrite (deref_Some _ _ _ Hc). cbn [bind].
  rewrite int_add_in_range by done. cbn [bind].
  match goal with
  | |- context [rec ch (depth + 1) (pr, ?o)] =>
      destruct (Hrec o) as (st1 & Hst1); rewrite Hst1
  end.
  cbn [bind]. apply rec_shape in Hst1 as (o & -> & _). apply IH.
Qed.

End PrintLoopsTotal.

(** On a well-shaped arena [print] returns, with fuel for the nodes that
    come after [node]. *)
Lemma print_node_total pr :
  wf pr ->
  forall fuel node depth n out,
    heap pr !! node = Some n -> at_depth (heap pr) node depth ->
    (length (heap pr) - node <= fuel)%nat ->
    exists st', print_node fuel node depth (pr, out) = Ok st'.
Proof.
  intros Hwf. induction fuel as [|fuel IH]; intros node depth n out Hn Hd Hf.
  - apply lookup_lt_Some in Hn. lia.
  - pose proof (at_depth_range _ _ _ Hwf Hd) as Hr.
    assert (Hkids : Forall (fun ch =>
              INT_MIN <= depth + 1 <= INT_MAX /\
              is_Some (heap pr !! ch) /\
              forall out, exists st',
                print_node fuel ch (depth + 1) (pr, out) = Ok st')
              (Node.childs n)).
    { apply Forall_forall. intros ch Hin.
      destruct (wf_childs _ Hwf _ _ _ Hn Hin) as (Hlt & cn & Hcn & _).
      assert (Hd' : at_depth (heap pr) ch (depth + 1)) by (econstructor; eauto).
      pose proof (at_depth_range _ _ _ Hwf Hd').
      split; [unfold INT_MIN; lia|]. split; [eauto|].
      intros out'. eapply IH; eauto. lia. }
    cbn [print_node]. rewrite (deref_Some _ _ _ Hn). cbn [bind].
    assert (Hhdr : exists out1,
      (if depth =? 0 then
         let* out := make_indent depth 0 out in
         Ok (out ++ [Printf ("%s" ++ nl)%string [ArgS (Node.name n)]])
       else Ok out) = Ok out1).
    { destruct (depth =? 0); [|eauto].
      rewrite make_indent_in_range by (unfold INT_MIN; lia). simpl. eauto. }
    destruct Hhdr as (out1 & ->). cbn [bind].
    destruct (f64_lt (Node.get_averaged n) lit_1e_6f).
    + apply print_negligible_total; [|done].
      intros ch d o st' H. by apply print_node_Ok in H.
    + rewrite unit_and_scale.
      destruct (print_scaled_total (print_node fuel) pr depth
                  (fun ch d o st' H => print_node_Ok _ _ _ _ _ _ H)
                  (unit_of (Node.get_averaged n)) (scale_of (Node.get_averaged n))
                  (Node.get_averaged n) (Node.childs n) out1
                  (Node.get_averaged n) Hkids) as ([[pr1 out2] u] & ->).
      cbn [bind].
      destruct (negb (bool_decide (Node.childs n = []))) eqn:Ekids;
        cbn [andb]; [|eauto].
      destruct (f64_lt _ u); [|eauto].
      destruct (Node.childs n) as [|ch chs]; [done|].
      apply Forall_cons in Hkids as [(Hr1 & _) _].
      rewrite make_indent_in_range by done. simpl. eauto.
Qed.

(** C9.  Printing is read-only.  Whenever [print(node, depth)] or [print()]
    returns, the records (every node with its name, child list, total time
    and sample count, the root, the cursor and the depth) are what they
    were before the call; and on a reachable state [print()] does return,
    having only appended to the output. *)
Theorem C9_print_is_read_only :
  (forall fuel node depth pr out st',
     print_node fuel node depth (pr, out) = Ok st' -> fst st' = pr) /\
  (forall pr out st', print (pr, out) = Ok st' -> fst st' = pr) /\
  (forall pr out,
     reachable pr -> exists o, print (pr, out) = Ok (pr, out ++ o)).
Proof.
  split_and!.
  - intros fuel node depth pr out st' H.
    by apply print_node_Ok in H as (o & -> & _).
  - intros pr out st' H. unfold print in H. simpl in H.
    by apply print_node_Ok in H as (o & -> & _).
  - intros pr out Hr. apply reachable_wf in Hr as Hwf.
    destruct (wf_root_parent _ Hwf) as (r & Hroot & _).
    unfold print. simpl. rewrite (wf_root _ Hwf).
    destruct (print_node_total pr Hwf (length (heap pr)) 0%nat 0 r out Hroot)
      as (st' & H); [constructor | lia |].
    rewrite H. apply print_node_Ok in H as (o & -> & _). eauto.
Qed.

Lemma C9_print_is_read_only_witness :
  exists o,
    print (new, []) = Ok (new, o) /\
    fst (new, o) = new /\
    fst (new, o) = new.
Proof.
  destruct C9_print_is_read_only as (Hnode & Hprint & Htotal).
  destruct (Htotal new [] reach_new) as (o & Ho).
  exists ([] ++ o). split; [exact Ho|]. split.
  - exact (Hprint _ _ _ Ho).
  - exact (Hnode 1%nat 0%nat 0 new [] (new, [] ++ o) Ho).
Defined.

Lemma reachable_records_A_B : reachable records_A_B.
Proof.
  pose proof (reach_push new "A" _ reach_new eq_refl) as H1.
  pose proof (reach_push _ "B" _ H1 eq_refl) as H2.
  pose proof (reach_insert_sample
                _ (f64_sub (f64_of_int 2) (f64_of_int 1)) _ H2 eq_refl) as H3.
  pose proof (reach_pop _ _ H3 eq_refl) as H4.
  pose proof (reach_insert_sample
                _ (f64_sub (f64_of_int 3) (f64_of_int 0)) _ H4 eq_refl) as H5.
  exact (reach_pop _ _ H5 eq_refl).
Qed.

Lemma at_depth_records_A_B_1 : at_depth (heap records_A_B) 1 1.
Proof.
  eapply (at_child _ 0%nat _ 1%nat 0); [constructor | reflexivity |].
  simpl. by apply list_elem_of_singleton.
Qed.

(** One level of [print] on a well-shaped arena, with fuel for the nodes
    that come after [node]: the call returns, and this is what it writes. *)
Lemma print_node_level pr node depth n fuel out :
  wf pr -> heap pr !! node = Some n -> at_depth (heap pr) node depth ->
  (length (heap pr) - node <= S fuel)%nat ->
  exists blocks,
    print_node (S fuel) node depth (pr, out) =
      Ok (pr, out ++ header depth n ++ concat blocks
                  ++ trailer (heap pr) depth n) /\
    Forall2 (fun ch block =>
               exists c sub,
                 heap pr !! ch = Some c /\
                 block = indent (depth + 1)
                           ++ child_line (Node.get_averaged n) c :: sub /\
                 prints fuel pr ch (depth + 1) sub)
            (Node.childs n) blocks.
Proof.
  intros Hwf Hn Hd Hf.
  destruct (print_node_total pr Hwf (S fuel) node depth n out Hn Hd Hf)
    as (st' & H).
  rewrite H.
  apply (print_node_step fuel pr (print_node_Ok fuel pr)) in H
    as (n' & blocks & Hn' & -> & _ & Hblocks).
  assert (n' = n) as -> by congruence. eauto.
Qed.

(** The same, with what the recursive call writes for each child: the
    blocks of the children of the child, and then the trailer of the child,
    which goes by the averaged total of the child. *)
Lemma print_node_two_levels pr node depth n fuel out :
  wf pr -> heap pr !! node = Some n -> at_depth (heap pr) node depth ->
  (length (heap pr) - node <= S fuel)%nat ->
  exists blocks,
    print_node (S fuel) node depth (pr, out) =
      Ok (pr, out ++ header depth n ++ concat blocks
                  ++ trailer (heap pr) depth n) /\
    Forall2 (fun ch block =>
               exists c sub blocks',
                 heap pr !! ch = Some c /\
                 block = indent (depth + 1)
                           ++ child_line (Node.get_averaged n) c :: sub /\
                 prints fuel pr ch (depth + 1) sub /\
                 sub = concat blocks' ++ trailer (heap pr) (depth + 1) c /\
                 length blocks' = length (Node.childs c))
            (Node.childs n) blocks.
Proof.
  intros Hwf Hn Hd Hf.
  destruct (print_node_level pr node depth n fuel out Hwf Hn Hd Hf)
    as (blocks & Hprint & Hblocks).
  exists blocks. split; [done|].
  pose proof (at_depth_range _ _ _ Hwf Hd) as Hrange.
  assert (Hkid : forall ch, ch ∈ Node.childs n ->
            (node < ch)%nat /\ at_depth (heap pr) ch (depth + 1)).
  { intros ch Hin. destruct (wf_childs _ Hwf _ _ _ Hn Hin) as (Hlt & _).
    split; [done|]. econstructor; eauto. }
  clear Hprint. revert Hblocks Hkid.
  generalize (Node.childs n) as chs. intros chs Hblocks.
  induction Hblocks as [|ch block chs blocks Hb _ IH]; intros Hkid.
  - constructor.
  - constructor; [|apply IH; intros x Hx; apply Hkid; by right].
    destruct Hb as (c & sub & Hc & -> & Hsub).
    destruct (Hkid ch) as (Hlt & Hdc); [left|].
    pose proof (lookup_lt_Some _ _ _ Hc) as Hlen.
    destruct fuel as [|fuel']; [lia|].
    destruct (print_node_level pr ch (depth + 1) c fuel' [] Hwf Hc Hdc)
      as (blocks' & Hprint' & Hblocks'); [lia|].
    rewrite (Hsub []) in Hprint'. injection Hprint' as ->.
    exists c, (header (depth + 1) c ++ concat blocks'
                 ++ trailer (heap pr) (depth + 1) c), blocks'.
    split_and!; try done.
    + unfold header. by replace (depth + 1 =? 0) with false
        by (symmetry; apply Z.eqb_neq; lia).
    + symmetry. by eapply Forall2_length.
Qed.

(** C7 as claimed fails.  After the region [A { B }] the root has the
    averaged total 0, below [1e-6f], yet the report of its subtree has
    lines with a percentage: the child [A] is expanded by its own averaged
    total. *)
Lemma C7_counterexample :
  exists tr r o,
    run_region region_A_B new = Ok (tr ++ [records_A_B]) /\
    heap records_A_B !! 0%nat = Some r /\
    f64_lt (Node.get_averaged r) lit_1e_6f = true /\
    print (records_A_B, []) = Ok (records_A_B, o) /\
    existsb is_percentage_line o = true.
Proof.
  eexists [_; _; _], _, _.
  split; [vm_compute; reflexivity|].
  split; [vm_compute; reflexivity|].
  split; [vm_compute; reflexivity|].
  split; [vm_compute; reflexivity|].
  vm_compute. reflexivity.
Qed.

(** C7, amended.  On a reachable state, [print(node, depth)] called with
    the depth of the node and fuel for the nodes after it returns, and
    writes one block for every child: the indentation one level below the
    node, the line of the child, and what the recursive call writes for the
    child one level down.  The line is decided by the averaged total of the
    expanded node alone: below [1e-6f], the averaged time of the child in
    seconds and its name, with no percentage (and the node gets no
    "[unaccounted]" line); otherwise the averaged time scaled by 1000 with
    unit "ms" when the total is below 0.1, by 1 with unit "s" when it is
    not, followed by the percentage of the total and the name.  What the
    recursive call writes for a child are the blocks of the children of the
    child and the trailer of the child, decided in the same way by the
    averaged total of the child, not by that of the node. *)
Theorem C7_unit_and_scale_from_own_total pr node depth n fuel out :
  reachable pr -> heap pr !! node = Some n ->
  at_depth (heap pr) node depth ->
  (length (heap pr) - node <= S fuel)%nat ->
  let total := Node.get_averaged n in
  exists blocks,
    print_node (S fuel) node depth (pr, out) =
      Ok (pr, out ++ header depth n ++ concat blocks
                  ++ trailer (heap pr) depth n) /\
    (f64_lt total lit_1e_6f = true -> trailer (heap pr) depth n = []) /\
    Forall2
      (fun ch block =>
         exists c line sub blocks',
           heap pr !! ch = Some c /\
           block = indent (depth + 1) ++ line :: sub /\
           prints fuel pr ch (depth + 1) sub /\
           sub = concat blocks' ++ trailer (heap pr) (depth + 1) c /\
           length blocks' = length (Node.childs c) /\
           (f64_lt total lit_1e_6f = true ->
              line = Printf ("%6.2f %s" ++ nl)%string
                       [ArgF (Node.get_averaged c); ArgS (Node.name c)]) /\
           (f64_lt total lit_1e_6f = false -> f64_lt total lit_0_1 = true ->
              line = Printf ("%6.2f%s %4.1f%%  %s" ++ nl)%string
                       [ArgF (f64_mul (Node.get_averaged c) (f64_of_int 1000));
                        ArgS "ms";
                        ArgF (f64_div (f64_mul (Node.get_averaged c) lit_100)
                                      total);
                        ArgS (Node.name c)]) /\
           (f64_lt total lit_1e_6f = false -> f64_lt total lit_0_1 = false ->
              line = Printf ("%6.2f%s %4.1f%%  %s" ++ nl)%string
                       [ArgF (f64_mul (Node.get_averaged c) (f64_of_int 1));
                        ArgS "s";
                        ArgF (f64_div (f64_mul (Node.get_averaged c) lit_100)
                                      total);
                        ArgS (Node.name c)]))
      (Node.childs n) blocks.
Proof.
  intros Hr Hn Hd Hf total. apply reachable_wf in Hr as Hwf.
  destruct (print_node_two_levels pr node depth n fuel out Hwf Hn Hd Hf)
    as (blocks & Hprint & Hblocks).
  exists blocks. split; [done|]. split.
  { unfold trailer, unaccounted_shown, negligible. fold total. by intros ->. }
  eapply Forall2_impl; [exact Hblocks|]. simpl.
  intros ch block (c & sub & blocks' & Hc & -> & Hsub & Hsub' & Hlen).
  exists c, (child_line total c), sub, blocks'.
  split_and!; try done; unfold child_line, negligible, unit_of, scale_of.
  - by intros ->.
  - by intros -> ->.
  - by intros -> ->.
Qed.

Lemma C7_unit_and_scale_from_own_total_witness :
  (exists n blocks,
     heap records_A_B !! 0%nat = Some n /\
     f64_lt (Node.get_averaged n) lit_1e_6f = true /\
     print_node 3 0 0 (records_A_B, []) =
       Ok (records_A_B,
           [] ++ header 0 n ++ concat blocks
              ++ trailer (heap records_A_B) 0 n) /\
     length blocks = length (Node.childs n)) /\
  (exists n blocks,
     heap records_A_B !! 1%nat = Some n /\
     f64_lt (Node.get_averaged n) lit_1e_6f = false /\
     print_node 2 1 1 (records_A_B, []) =
       Ok (records_A_B,
           [] ++ header 1 n ++ concat blocks
              ++ trailer (heap records_A_B) 1 n) /\
     length blocks = length (Node.childs n)).
Proof.
  split.
  - destruct (C7_unit_and_scale_from_own_total records_A_B 0%nat 0 _ 2%nat []
                reachable_records_A_B eq_refl (at_root _))
      as (blocks & Hprint & _ & Hblocks); [simpl; lia|].
    eexists _, blocks. split_and!; [reflexivity|reflexivity|exact Hprint|].
    symmetry. by eapply Forall2_length.
  - destruct (C7_unit_and_scale_from_own_total records_A_B 1%nat 1 _ 1%nat []
                reachable_records_A_B eq_refl at_depth_records_A_B_1)
      as (blocks & Hprint & _ & Hblocks); [simpl; lia|].
    eexists _, blocks. split_and!; [reflexivity|reflexivity|exact Hprint|].
    symmetry. by eapply Forall2_length.
Defined.

(** C8 as claimed fails.  After the region [region_tiny], node [A] has a
    child and its remainder exceeds 5% of its averaged total, yet the report
    has no "[unaccounted]" line: the averaged total of [A] is below [1e-6f],
    and that branch of [print] prints no such line. *)
Lemma C8_counterexample :
  exists tr n o,
    run_region region_tiny new = Ok (tr ++ [records_tiny]) /\
    heap records_tiny !! 1%nat = Some n /\
    unaccounted_claimed (heap records_tiny) n = true /\
    print (records_tiny, []) = Ok (records_tiny, o) /\
    existsb is_unaccounted_line o = false.
Proof.
  eexists [_; _; _], _, _.
  split; [vm_compute; reflexivity|].
  split; [vm_compute; reflexivity|].
  split; [vm_compute; reflexivity|].
  split; [vm_compute; reflexivity|].
  vm_compute. reflexivity.
Qed.

(** C8, amended.  On a reachable state, [print(node, depth)] called with
    the depth of the node and fuel for the nodes after it returns; after the
    blocks of the children of the node it writes either nothing or the
    indentation of the children (one level below the node) followed by the
    "[unaccounted]" line, which shows the remainder scaled with the unit of
    the node and its percentage of the averaged total of the node.  It
    writes the line exactly when the averaged total of the node is not below
    [1e-6f], the node has a child, and the remainder (the averaged total
    with the averaged time of each child subtracted in turn) exceeds the
    averaged total times 0.05. *)
Theorem C8_unaccounted_line pr node depth n fuel out :
  reachable pr -> heap pr !! node = Some n ->
  at_depth (heap pr) node depth ->
  (length (heap pr) - node <= S fuel)%nat ->
  exists blocks,
    Forall2
      (fun ch block =>
         exists c sub,
           heap pr !! ch = Some c /\
           block = indent (depth + 1)
                     ++ child_line (Node.get_averaged n) c :: sub /\
           prints fuel pr ch (depth + 1) sub)
      (Node.childs n) blocks /\
    let total := Node.get_averaged n in
    let u := unaccounted (heap pr) n in
    let shown :=
      negb (f64_lt total lit_1e_6f)
      && (negb (bool_decide (Node.childs n = []))
          && f64_lt (f64_mul total lit_0_05) u) in
    print_node (S fuel) node depth (pr, out) =
      Ok (pr,
          out ++ header depth n ++ concat blocks
              ++ (if shown then
                    repeat (Printf "  " []) (Z.to_nat (depth + 1))
                      ++ [Printf ("%6.2f%s %4.1f%%  %s" ++ nl)%string
                            [ArgF (f64_mul u (scale_of total));
                             ArgS (unit_of total);
                             ArgF (f64_div (f64_mul u lit_100) total);
                             ArgS "[unaccounted]"]]
                  else [])).
Proof.
  intros Hr Hn Hd Hf. apply reachable_wf in Hr as Hwf.
  destruct (print_node_level pr node depth n fuel out Hwf Hn Hd Hf)
    as (blocks & Hprint & Hblocks).
  exists blocks. split; [done|]. exact Hprint.
Qed.

Lemma C8_unaccounted_line_witness :
  (exists n blocks,
     heap records_A_B !! 1%nat = Some n /\
     length blocks = length (Node.childs n) /\
     print_node 2 1 1 (records_A_B, []) =
       Ok (records_A_B,
           [] ++ header 1 n ++ concat blocks
              ++ indent 2
              ++ [unaccounted_line (Node.get_averaged n)
                                   (unaccounted (heap records_A_B) n)])) /\
  (exists n blocks,
     heap records_A_B !! 0%nat = Some n /\
     length blocks = length (Node.childs n) /\
     print_node 3 0 0 (records_A_B, []) =
       Ok (records_A_B, [] ++ header 0 n ++ concat blocks ++ [])).
Proof.
  split.
  - destruct (C8_unaccounted_line records_A_B 1%nat 1 _ 1%nat []
                reachable_records_A_B eq_refl at_depth_records_A_B_1)
      as (blocks & Hblocks & Hprint); [simpl; lia|].
    eexists _, blocks. split_and!; [reflexivity| |exact Hprint].
    symmetry. by eapply Forall2_length.
  - destruct (C8_unaccounted_line records_A_B 0%nat 0 _ 2%nat []
                reachable_records_A_B eq_refl (at_root _))
      as (blocks & Hblocks & Hprint); [simpl; lia|].
    eexists _, blocks. split_and!; [reflexivity| |exact Hprint].
    symmetry. by eapply Forall2_length.
Defined.

(** ** Further properties of the accumulation tree *)

Lemma extends_refl pr : extends pr pr.
Proof. split_and!; [done|done|]. intros i n Hn. exists n. by split_and!. Qed.

Lemma extends_trans pr1 pr2 pr3 :
  extends pr1 pr2 -> extends pr2 pr3 -> extends pr1 pr3.
Proof.
  intros (Hr12 & Hl12 & H12) (Hr23 & Hl23 & H23). split_and!.
  - congruence.
  - lia.
  - intros i n Hn. destruct (H12 _ _ Hn) as (n2 & Hn2 & E1 & E2 & E3 & E4).
    destruct (H23 _ _ Hn2) as (n3 & Hn3 & F1 & F2 & F3 & F4).
    exists n3. split_and!; try congruence; [by etrans | lia].
Qed.

Lemma push_extends pr name pr' : push pr name = Ok pr' -> extends pr pr'.
Proof.
  intros H. apply push_Ok in H as (c & ch & h & Hc & Hg & _ & ->).
  apply get_child_Ok in Hg as (n & Hn & [[_ ->]|(_ & -> & ->)]).
  - split_and!; [done|done|]. intros i m Hm. exists m. by split_and!.
  - split_and!; [done| |]; simpl.
    + rewrite length_app, length_insert. lia.
    + intros i m Hm. rewrite (lookup_alloc _ _ _ _ _ Hn).
      pose proof (lookup_lt_Some _ _ _ Hm).
      destruct (decide (i = c)) as [->|].
      * assert (m = n) as -> by congruence. eexists. split; [done|].
        simpl. split_and!; try done. by apply prefix_app_r.
      * rewrite decide_False by lia. exists m. by split_and!.
Qed.

Lemma insert_sample_extends pr x pr' :
  insert_sample pr x = Ok pr' -> extends pr pr'.
Proof.
  intros H. apply insert_sample_Ok in H as (c & n & n' & Hc & Hn & Hn' & ->).
  apply Node_insert_sample_Ok in Hn' as (Hch & Hpa & Hna & _ & Hns & _).
  pose proof (lookup_lt_Some _ _ _ Hn) as Hlt.
  split_and!; [done| |]; simpl.
  - by rewrite length_insert.
  - intros i m Hm. destruct (decide (c = i)) as [<-|Hne].
    + rewrite list_lookup_insert_eq by done.
      assert (m = n) as -> by congruence. exists n'.
      split_and!; try done; [by rewrite Hch | lia].
    + rewrite list_lookup_insert_ne by done. exists m. by split_and!.
Qed.

Lemma pop_extends pr pr' : pop pr = Ok pr' -> extends pr pr'.
Proof.
  intros H. apply pop_Ok in H as (c & n & _ & _ & _ & ->).
  split_and!; [done|done|]. intros i m Hm. exists m. by split_and!.
Qed.

Lemma evolves_extends pr pr' : evolves pr pr' -> extends pr pr'.
Proof.
  induction 1 as [pr|pr pr1 name pr2 _ IH H|pr pr1 x pr2 _ IH H|pr pr1 pr2 _ IH H].
  - apply extends_refl.
  - eapply extends_trans; [exact IH|]. by eapply push_extends.
  - eapply extends_trans; [exact IH|]. by eapply insert_sample_extends.
  - eapply extends_trans; [exact IH|]. by eapply pop_extends.
Qed.

Lemma evolves_trans pr1 pr2 pr3 :
  evolves pr1 pr2 -> evolves pr2 pr3 -> evolves pr1 pr3.
Proof.
  intros H12 H23. induction H23; eauto using evolves.
Qed.

Lemma evolves_reachable pr pr' : reachable pr -> evolves pr pr' -> reachable pr'.
Proof. intros Hr H. induction H; eauto using reachable. Qed.

Lemma reachable_evolves pr : reachable pr -> evolves new pr.
Proof. induction 1; eauto using evolves. Qed.

(** X1.  Whatever calls take the records from one state to a later one,
    every node that exists stays at its place in the arena with its name and
    its parent, its list of children is only extended at the end, its
    sample count does not go down, and no node disappears. *)
Theorem X1_nodes_are_kept pr pr' :
  evolves pr pr' ->
  root pr' = root pr /\
  (length (heap pr) <= length (heap pr'))%nat /\
  forall i n, heap pr !! i = Some n ->
    exists n', heap pr' !! i = Some n' /\
      Node.name n' = Node.name n /\
      Node.parent n' = Node.parent n /\
      (exists later, Node.childs n' = Node.childs n ++ later) /\
      Node.num_samples n <= Node.num_samples n'.
Proof.
  intros H. apply evolves_extends in H as (Hr & Hl & H).
  split; [done|]. split; [done|]. intros i n Hn.
  destruct (H _ _ Hn) as (n' & Hn' & E1 & E2 & [later E3] & E4).
  exists n'. split_and!; try done. by exists later.
Qed.

Lemma X1_nodes_are_kept_witness :
  exists pr',
    push new "A" = Ok pr' /\
    root pr' = root new /\
    (length (heap new) <= length (heap pr'))%nat /\
    forall i n, heap new !! i = Some n ->
      exists n', heap pr' !! i = Some n' /\
        Node.name n' = Node.name n /\
        Node.parent n' = Node.parent n /\
        (exists later, Node.childs n' = Node.childs n ++ later) /\
        Node.num_samples n <= Node.num_samples n'.
Proof.
  eexists. split; [reflexivity|].
  apply X1_nodes_are_kept.
  eapply evolves_push; [apply evolves_refl | reflexivity].
Defined.

(** [insert_sample] leaves names, parents and child lists as they are. *)
Lemma insert_sample_shape pr x pr' :
  insert_sample pr x = Ok pr' ->
  forall i,
    (forall m', heap pr' !! i = Some m' ->
       exists m, heap pr !! i = Some m /\ Node.childs m' = Node.childs m /\
                 Node.name m' = Node.name m /\ Node.parent m' = Node.parent m) /\
    (forall m, heap pr !! i = Some m ->
       exists m', heap pr' !! i = Some m' /\ Node.childs m' = Node.childs m /\
                  Node.name m' = Node.name m /\ Node.parent m' = Node.parent m).
Proof.
  intros H i. apply insert_sample_Ok in H as (c & n & n' & Hc & Hn & Hn' & ->).
  apply Node_insert_sample_Ok in Hn' as (Hch & Hpa & Hna & _).
  pose proof (lookup_lt_Some _ _ _ Hn) as Hlt. simpl.
  destruct (decide (c = i)) as [<-|Hne].
  - rewrite list_lookup_insert_eq by done. split.
    + intros m' [= <-]. eauto.
    + intros m Hm. assert (m = n) as -> by congruence. eauto.
  - rewrite list_lookup_insert_ne by done. split; intros m Hm; eauto.
Qed.

Lemma distinct_names_new : distinct_names new.
Proof.
  intros [|i] n j1 j2 c1 c2 n1 n2; [|by destruct i].
  intros [= <-]. simpl. by rewrite lookup_nil.
Qed.

Lemma distinct_names_insert_sample pr x pr' :
  distinct_names pr -> insert_sample pr x = Ok pr' -> distinct_names pr'.
Proof.
  intros Hd H i m j1 j2 c1 c2 n1 n2 Hm Hj1 Hj2 Hc1 Hc2 Hname.
  destruct (insert_sample_shape _ _ _ H i) as [Hi _].
  destruct (insert_sample_shape _ _ _ H c1) as [Hi1 _].
  destruct (insert_sample_shape _ _ _ H c2) as [Hi2 _].
  destruct (Hi _ Hm) as (m0 & Hm0 & E & _).
  destruct (Hi1 _ Hc1) as (m1 & Hm1 & _ & E1 & _).
  destruct (Hi2 _ Hc2) as (m2 & Hm2 & _ & E2 & _).
  rewrite E in Hj1, Hj2.
  eapply (Hd i m0 j1 j2 c1 c2 m1 m2); eauto. congruence.
Qed.

Lemma distinct_names_push pr name pr' :
  wf pr -> distinct_names pr -> push pr name = Ok pr' -> distinct_names pr'.
Proof.
  intros Hwf Hd H. apply push_Ok in H as (c & ch & h & Hc & Hg & _ & ->).
  apply get_child_Ok in Hg as (n & Hn & [[_ ->]|(Hf & -> & ->)]); [done|].
  pose proof (lookup_lt_Some _ _ _ Hn) as Hlt.
  set (h' := <[c := Node.push_back n (length (heap pr))]> (heap pr)
               ++ [Node.new name (Some c)]).
  assert (Hold : forall x mx, (x < length (heap pr))%nat -> h' !! x = Some mx ->
            exists m0, heap pr !! x = Some m0 /\ Node.name mx = Node.name m0).
  { intros x mx Hx. unfold h'. rewrite (lookup_alloc _ _ _ _ _ Hn).
    destruct (decide (x = c)) as [->|].
    - intros [= <-]. eauto.
    - rewrite decide_False by lia. eauto. }
  assert (Hkid : forall i m x, heap pr !! i = Some m -> x ∈ Node.childs m ->
            (x < length (heap pr))%nat).
  { intros i m x Hm Hx.
    destruct (wf_childs _ Hwf _ _ _ Hm Hx) as (_ & cn & Hcn & _).
    by eapply lookup_lt_Some. }
  intros i m j1 j2 c1 c2 n1 n2. simpl. fold h'.
  unfold h' at 1. rewrite (lookup_alloc _ _ _ _ _ Hn).
  destruct (decide (i = c)) as [->|Hic].
  - intros [= <-]. simpl.
    rewrite !lookup_app_Some, !list_lookup_singleton_Some.
    intros [Hj1|(Hl1 & Hz1 & <-)] [Hj2|(Hl2 & Hz2 & <-)] Hc1 Hc2 Hname.
    + assert (Hx1 : c1 ∈ Node.childs n) by (apply list_elem_of_lookup; eauto).
      assert (Hx2 : c2 ∈ Node.childs n) by (apply list_elem_of_lookup; eauto).
      destruct (Hold _ _ (Hkid _ _ _ Hn Hx1) Hc1) as (m1 & Hm1 & E1).
      destruct (Hold _ _ (Hkid _ _ _ Hn Hx2) Hc2) as (m2 & Hm2 & E2).
      eapply (Hd c n j1 j2 c1 c2 m1 m2); eauto. congruence.
    + assert (Hx1 : c1 ∈ Node.childs n) by (apply list_elem_of_lookup; eauto).
      destruct (Hold _ _ (Hkid _ _ _ Hn Hx1) Hc1) as (m1 & Hm1 & E1).
      destruct (find_child_None _ _ _ Hf _ Hx1) as (m1' & Hm1' & Hne).
      assert (m1' = m1) as -> by congruence.
      unfold h' in Hc2. rewrite (lookup_alloc _ _ _ _ _ Hn) in Hc2.
      rewrite decide_False in Hc2 by lia. rewrite decide_True in Hc2 by done.
      injection Hc2 as <-. simpl in Hname. congruence.
    + assert (Hx2 : c2 ∈ Node.childs n) by (apply list_elem_of_lookup; eauto).
      destruct (Hold _ _ (Hkid _ _ _ Hn Hx2) Hc2) as (m2 & Hm2 & E2).
      destruct (find_child_None _ _ _ Hf _ Hx2) as (m2' & Hm2' & Hne).
      assert (m2' = m2) as -> by congruence.
      unfold h' in Hc1. rewrite (lookup_alloc _ _ _ _ _ Hn) in Hc1.
      rewrite decide_False in Hc1 by lia. rewrite decide_True in Hc1 by done.
      injection Hc1 as <-. simpl in Hname. congruence.
    + lia.
  - destruct (decide (i = length (heap pr))) as [->|Hil].
    + intros [= <-]. simpl. by rewrite lookup_nil.
    + intros Hm Hj1 Hj2 Hc1 Hc2 Hname.
      assert (Hx1 : c1 ∈ Node.childs m) by (apply list_elem_of_lookup; eauto).
      assert (Hx2 : c2 ∈ Node.childs m) by (apply list_elem_of_lookup; eauto).
      destruct (Hold _ _ (Hkid _ _ _ Hm Hx1) Hc1) as (m1 & Hm1 & E1).
      destruct (Hold _ _ (Hkid _ _ _ Hm Hx2) Hc2) as (m2 & Hm2 & E2).
      eapply (Hd i m j1 j2 c1 c2 m1 m2); eauto. congruence.
Qed.

Lemma distinct_names_pop pr pr' :
  distinct_names pr -> pop pr = Ok pr' -> distinct_names pr'.
Proof. intros Hd H. by apply pop_Ok in H as (c & n & _ & _ & _ & ->). Qed.

Lemma reachable_distinct_names pr : reachable pr -> distinct_names pr.
Proof.
  induction 1 as [|pr name pr' Hr IH H|pr x pr' Hr IH H|pr pr' Hr IH H].
  - apply distinct_names_new.
  - eapply distinct_names_push; eauto using reachable_wf.
  - by eapply distinct_names_insert_sample.
  - by eapply distinct_names_pop.
Qed.

(** X2.  In every reachable state the children of a node have pairwise
    different names: two entries of a child list that point to nodes of the
    same name are the same entry. *)
Theorem X2_sibling_names_differ pr i n j1 j2 c1 c2 n1 n2 :
  reachable pr ->
  heap pr !! i = Some n ->
  Node.childs n !! j1 = Some c1 -> Node.childs n !! j2 = Some c2 ->
  heap pr !! c1 = Some n1 -> heap pr !! c2 = Some n2 ->
  Node.name n1 = Node.name n2 -> j1 = j2.
Proof. intros Hr. by apply reachable_distinct_names. Qed.

Lemma reachable_records_A : reachable records_A.
Proof. by apply (reach_push new "A" records_A reach_new). Qed.

Lemma X2_sibling_names_differ_witness : 0%nat = 0%nat.
Proof.
  apply (X2_sibling_names_differ records_A 0%nat
           (Node.push_back (Node.new "[Taichi Profiler]" None) 1)
           0%nat 0%nat 1%nat 1%nat
           (Node.new "A" (Some 0%nat)) (Node.new "A" (Some 0%nat)));
    [apply reachable_records_A | reflexivity..].
Defined.

Lemma parents_listed_new : parents_listed new.
Proof. intros [|i] n; [|by destruct i]. by intros [= <-]. Qed.

Lemma parents_listed_insert_sample pr x pr' :
  parents_listed pr -> insert_sample pr x = Ok pr' -> parents_listed pr'.
Proof.
  intros Hp H i m Hm.
  destruct (insert_sample_shape _ _ _ H i) as [Hi _].
  destruct (Hi _ Hm) as (m0 & Hm0 & _ & _ & E). rewrite E.
  specialize (Hp _ _ Hm0). destruct (Node.parent m0) as [p|]; [|done].
  destruct Hp as (pn & Hpn & Hin).
  destruct (insert_sample_shape _ _ _ H p) as [_ Hb].
  destruct (Hb _ Hpn) as (pn' & Hpn' & E' & _). exists pn'.
  split; [done|]. by rewrite E'.
Qed.

Lemma parents_listed_push pr name pr' :
  parents_listed pr -> push pr name = Ok pr' -> parents_listed pr'.
Proof.
  intros Hp H. apply push_Ok in H as (c & ch & h & Hc & Hg & _ & ->).
  apply get_child_Ok in Hg as (n & Hn & [[_ ->]|(Hf & -> & ->)]); [done|].
  pose proof (lookup_lt_Some _ _ _ Hn) as Hlt.
  assert (Hback : forall p pn, heap pr !! p = Some pn ->
            exists pn', (<[c := Node.push_back n (length (heap pr))]> (heap pr)
                           ++ [Node.new name (Some c)]) !! p = Some pn' /\
                        forall x, x ∈ Node.childs pn -> x ∈ Node.childs pn').
  { intros p pn Hpn. rewrite (lookup_alloc _ _ _ _ _ Hn).
    pose proof (lookup_lt_Some _ _ _ Hpn).
    destruct (decide (p = c)) as [->|].
    - assert (pn = n) as -> by congruence. eexists. split; [done|].
      simpl. intros x Hx. apply elem_of_app. by left.
    - rewrite decide_False by lia. eauto. }
  intros i m. simpl. rewrite (lookup_alloc _ _ _ _ _ Hn).
  repeat case_decide; subst.
  - intros [= <-]. simpl. specialize (Hp _ _ Hn).
    destruct (Node.parent n) as [p|]; [|done].
    destruct Hp as (pn & Hpn & Hin).
    destruct (Hback _ _ Hpn) as (pn' & Hpn' & Hsub). eauto.
  - intros [= <-]. simpl. eexists. rewrite (lookup_alloc _ _ _ _ _ Hn).
    rewrite decide_True by done. split; [done|]. simpl.
    apply elem_of_app. right. by apply list_elem_of_singleton.
  - intros Hm. specialize (Hp _ _ Hm).
    destruct (Node.parent m) as [p|]; [|done].
    destruct Hp as (pn & Hpn & Hin).
    destruct (Hback _ _ Hpn) as (pn' & Hpn' & Hsub). eauto.
Qed.

Lemma parents_listed_pop pr pr' :
  parents_listed pr -> pop pr = Ok pr' -> parents_listed pr'.
Proof. intros Hd H. by apply pop_Ok in H as (c & n & _ & _ & _ & ->). Qed.

Lemma reachable_parents_listed pr : reachable pr -> parents_listed pr.
Proof.
  induction 1 as [|pr name pr' Hr IH H|pr x pr' Hr IH H|pr pr' Hr IH H].
  - apply parents_listed_new.
  - by eapply parents_listed_push.
  - by eapply parents_listed_insert_sample.
  - by eapply parents_listed_pop.
Qed.

(** X3.  In every reachable state the arena is a tree under the root, and
    the [parent] pointers agree with the child lists: the root is the one
    node without a parent; every other node was allocated after its parent
    and is listed among the children of that parent; every listed child
    points back to the node that lists it; and no child is listed twice. *)
Theorem X3_parents_and_children_agree pr i n :
  reachable pr -> heap pr !! i = Some n ->
  (Node.parent n = None <-> i = root pr) /\
  (forall p, Node.parent n = Some p ->
     (p < i)%nat /\ exists pn, heap pr !! p = Some pn /\ i ∈ Node.childs pn) /\
  (forall c, c ∈ Node.childs n ->
     (i < c)%nat /\ exists cn, heap pr !! c = Some cn /\ Node.parent cn = Some i) /\
  NoDup (Node.childs n).
Proof.
  intros Hr Hn. pose proof (reachable_wf _ Hr) as Hwf.
  pose proof (reachable_parents_listed _ Hr _ _ Hn) as Hp.
  split_and!.
  - rewrite (wf_root _ Hwf). split.
    + intros E. by rewrite E in Hp.
    + intros ->. destruct (wf_root_parent _ Hwf) as (r & Hroot & E). congruence.
  - intros p E. rewrite E in Hp. destruct Hp as (pn & Hpn & Hin).
    destruct (wf_childs _ Hwf _ _ _ Hpn Hin) as (Hlt & _). eauto.
  - intros c Hc. by eapply wf_childs.
  - apply NoDup_alt. intros j1 j2 c Hj1 Hj2.
    assert (Hc : c ∈ Node.childs n) by (apply list_elem_of_lookup; eauto).
    destruct (wf_childs _ Hwf _ _ _ Hn Hc) as (_ & cn & Hcn & _).
    by eapply (reachable_distinct_names _ Hr i n j1 j2 c c cn cn).
Qed.

Lemma X3_parents_and_children_agree_witness :
  let n := Node.new "A" (Some 0%nat) in
  (Node.parent n = None <-> 1%nat = root records_A) /\
  (forall p, Node.parent n = Some p ->
     (p < 1)%nat /\
     exists pn, heap records_A !! p = Some pn /\ 1%nat ∈ Node.childs pn) /\
  (forall c, c ∈ Node.childs n ->
     (1 < c)%nat /\
     exists cn, heap records_A !! c = Some cn /\ Node.parent cn = Some 1%nat) /\
  NoDup (Node.childs n).
Proof.
  apply (X3_parents_and_children_agree records_A 1%nat);
    [apply reachable_records_A | reflexivity].
Defined.

Lemma climb_at_depth pr i d :
  wf pr -> at_depth (heap pr) i d ->
  forall fuel, (i < fuel)%nat -> climb fuel (heap pr) i = Some d.
Proof.
  intros Hwf H. induction H as [|p n c d Hp IH Hn Hc]; intros fuel Hf.
  - destruct fuel as [|fuel]; [lia|]. simpl.
    destruct (wf_root_parent _ Hwf) as (r & -> & ->). done.
  - destruct fuel as [|fuel]; [lia|]. simpl.
    destruct (wf_childs _ Hwf _ _ _ Hn Hc) as (Hlt & cn & -> & ->).
    by rewrite IH by lia.
Qed.

(** X4.  The depth counter mirrors the cursor: in every reachable state
    whose cursor is not null, following the [parent] pointers from the
    cursor reaches the root in exactly [current_depth] steps (so the counter
    is never negative there, and is 0 exactly at the root). *)
Theorem X4_depth_counts_the_ancestors pr c :
  reachable pr -> current_node pr = Some c ->
  climb (length (heap pr)) (heap pr) c = Some (current_depth pr) /\
  0 <= current_depth pr /\
  (current_depth pr = 0 <-> c = root pr).
Proof.
  intros Hr Hc. pose proof (reachable_wf _ Hr) as Hwf.
  pose proof (wf_cursor _ Hwf) as Hd. rewrite Hc in Hd.
  destruct (at_depth_lookup _ _ _ Hwf Hd) as (n & Hn).
  split_and!.
  - apply climb_at_depth; [done|done|]. by eapply lookup_lt_Some.
  - by apply (at_depth_range _ _ _ Hwf Hd).
  - rewrite (wf_root _ Hwf). split.
    + intros E. rewrite E in Hd.
      inversion Hd as [|p pn c' d Hp Hpn Hin Hc' Hdd]; [done|].
      pose proof (at_depth_range _ _ _ Hwf Hp). lia.
    + intros ->. by eapply at_depth_root_inv.
Qed.

Lemma X4_depth_counts_the_ancestors_witness :
  climb (length (heap records_A)) (heap records_A) 1 = Some (current_depth records_A) /\
  0 <= current_depth records_A /\
  (current_depth records_A = 0 <-> 1%nat = root records_A).
Proof.
  apply (X4_depth_counts_the_ancestors records_A 1%nat);
    [apply reachable_records_A | reflexivity].
Defined.

(** X5.  [push] followed by [pop] is a round trip for the cursor and the
    depth: from a reachable state with a cursor and a depth below INT_MAX
    both calls return, the cursor and the depth are what they were, at most
    one node has been allocated (the child that was entered, when the name
    was new), and every node that existed is unchanged, except that the
    node under the cursor lists the new child last. *)
Theorem X5_push_then_pop pr c n name :
  reachable pr -> current_node pr = Some c -> heap pr !! c = Some n ->
  current_depth pr < INT_MAX ->
  exists pr1 ch pr2,
    push pr name = Ok pr1 /\ current_node pr1 = Some ch /\
    pop pr1 = Ok pr2 /\
    current_node pr2 = Some c /\ current_depth pr2 = current_depth pr /\
    root pr2 = root pr /\
    (forall i m, i <> c -> heap pr !! i = Some m -> heap pr2 !! i = Some m) /\
    ((heap pr2 = heap pr /\ ch ∈ Node.childs n) \/
     (ch = length (heap pr) /\ length (heap pr2) = S (length (heap pr)) /\
      heap pr2 !! c = Some (Node.push_back n ch) /\
      heap pr2 !! ch = Some (Node.new name (Some c)))).
Proof.
  intros Hr Hc Hn Hd. pose proof (reachable_wf _ Hr) as Hwf.
  pose proof (wf_cursor_depth _ _ Hwf Hc) as Hrange.
  pose proof (lookup_lt_Some _ _ _ Hn) as Hlt.
  destruct (push_total _ _ name Hwf Hc Hd) as (pr1 & Hpush).
  apply push_Ok in Hpush as Hp. destruct Hp as (c' & ch & h & Hc' & Hg & _ & ->).
  assert (c' = c) as -> by congruence.
  exists {| heap := h; root := root pr; current_node := Some ch;
            current_depth := current_depth pr + 1 |}, ch,
         {| heap := h; root := root pr; current_node := Some c;
            current_depth := current_depth pr |}.
  split; [done|]. split; [done|].
  apply get_child_Ok in Hg as (n' & Hn' & [[Hf ->]|(Hf & -> & ->)]);
    assert (n' = n) as -> by congruence.
  - apply find_child_Some in Hf as (Hin & _).
    destruct (wf_childs _ Hwf _ _ _ Hn Hin) as (_ & cn & Hcn & Hpar).
    split_and!; simpl; try done; [|by left].
    unfold pop. simpl. rewrite Hcn. simpl.
    rewrite int_sub_in_range by (unfold INT_MIN; lia). simpl.
    rewrite Hpar. by replace (current_depth pr + 1 - 1) with (current_depth pr) by lia.
  - split_and!; simpl; try done.
    + unfold pop. simpl. rewrite (lookup_alloc _ _ _ _ _ Hn).
      rewrite decide_False by lia. rewrite decide_True by done. simpl.
      rewrite int_sub_in_range by (unfold INT_MIN; lia). simpl.
      by replace (current_depth pr + 1 - 1) with (current_depth pr) by lia.
    + intros i m Hi Hm. pose proof (lookup_lt_Some _ _ _ Hm).
      rewrite (lookup_alloc _ _ _ _ _ Hn). by rewrite !decide_False by lia.
    + right. split_and!; try done.
      * rewrite length_app, length_insert. simpl. lia.
      * rewrite (lookup_alloc _ _ _ _ _ Hn). by rewrite decide_True.
      * rewrite (lookup_alloc _ _ _ _ _ Hn).
        rewrite decide_False by lia. by rewrite decide_True.
Qed.

Lemma X5_push_then_pop_witness :
  exists pr1 ch pr2,
    push records_A "B" = Ok pr1 /\ current_node pr1 = Some ch /\
    pop pr1 = Ok pr2 /\
    current_node pr2 = Some 1%nat /\
    current_depth pr2 = current_depth records_A /\
    root pr2 = root records_A /\
    (forall i m, i <> 1%nat -> heap records_A !! i = Some m ->
                 heap pr2 !! i = Some m) /\
    ((heap pr2 = heap records_A /\ ch ∈ Node.childs (Node.new "A" (Some 0%nat))) \/
     (ch = length (heap records_A) /\
      length (heap pr2) = S (length (heap records_A)) /\
      heap pr2 !! 1%nat = Some (Node.push_back (Node.new "A" (Some 0%nat)) ch) /\
      heap pr2 !! ch = Some (Node.new "B" (Some 1%nat)))).
Proof.
  apply (X5_push_then_pop records_A 1%nat (Node.new "A" (Some 0%nat)) "B");
    [apply reachable_records_A | reflexivity | reflexivity | reflexivity].
Defined.

(** The loop of [get_child] only reads names: it gives the same answer in
    an arena that agrees on the names of the children it visits. *)
Lemma find_child_same_names (h h' : list Node.t) chs name r :
  (forall ch c, ch ∈ chs -> h !! ch = Some c ->
     exists c', h' !! ch = Some c' /\ Node.name c' = Node.name c) ->
  Node.find_child h chs name = Ok r ->
  Node.find_child h' chs name = Ok r.
Proof.
  revert r. induction chs as [|x chs IH]; simpl; intros r H; [done|].
  destruct (h !! x) as [c|] eqn:E; [|discriminate].
  destruct (H x c) as (c' & -> & ->); [left|done|].
  destruct (String.eqb (Node.name c) name); [done|].
  apply IH. intros ch c0 Hin. apply H. by right.
Qed.

(** After [push(name)] the cursor is a child of the old cursor, it carries
    the name, and the loop of [get_child] finds it under that name. *)
Lemma push_enters_child pr c name pr1 :
  wf pr -> current_node pr = Some c -> push pr name = Ok pr1 ->
  exists ch cn nc,
    current_node pr1 = Some ch /\ heap pr1 !! ch = Some cn /\
    Node.parent cn = Some c /\ Node.name cn = name /\
    current_depth pr1 = current_depth pr + 1 /\ root pr1 = root pr /\
    (c < ch)%nat /\ heap pr1 !! c = Some nc /\
    Node.find_child (heap pr1) (Node.childs nc) name = Ok (Some ch).
Proof.
  intros Hwf Hc H. apply push_Ok in H as (c' & ch & h & Hc' & Hg & _ & ->).
  assert (c' = c) as -> by congruence.
  apply get_child_Ok in Hg as (n & Hn & [[Hf ->]|(Hf & -> & ->)]).
  - pose proof Hf as Hf'. apply find_child_Some in Hf' as (Hin & cn & Hcn & Hname).
    destruct (wf_childs _ Hwf _ _ _ Hn Hin) as (Hlt & cn' & Hcn' & Hpar).
    assert (cn' = cn) as -> by congruence.
    exists ch, cn, n. by split_and!.
  - pose proof (lookup_lt_Some _ _ _ Hn) as Hlt. simpl.
    set (h' := <[c := Node.push_back n (length (heap pr))]> (heap pr)
                 ++ [Node.new name (Some c)]).
    assert (Hthis : h' !! c = Some (Node.push_back n (length (heap pr)))).
    { unfold h'. rewrite (lookup_alloc _ _ _ _ _ Hn). by rewrite decide_True. }
    assert (Hnew : h' !! length (heap pr) = Some (Node.new name (Some c))).
    { unfold h'. rewrite (lookup_alloc _ _ _ _ _ Hn).
      rewrite decide_False by lia. by rewrite decide_True. }
    exists (length (heap pr)), (Node.new name (Some c)),
           (Node.push_back n (length (heap pr))).
    split_and!; try done. simpl.
    eapply find_child_app_found; [|exact Hnew|done].
    eapply find_child_same_names; [|exact Hf].
    intros x cx Hin Hcx. pose proof (lookup_lt_Some _ _ _ Hcx).
    unfold h'. rewrite (lookup_alloc _ _ _ _ _ Hn).
    destruct (decide (x = c)) as [->|].
    + assert (cx = n) as -> by congruence. eauto.
    + rewrite decide_False by lia. eauto.
Qed.

(** The effect of a [stop] that returns. *)
Lemma stop_Ok now p pr p' pr' :
  Profiler.stop now p pr = Ok (p', pr') ->
  exists ch n,
    current_node pr = Some ch /\ heap pr !! ch = Some n /\
    heap pr' = <[ch := {| Node.childs := Node.childs n;
                          Node.parent := Node.parent n;
                          Node.name := Node.name n;
                          Node.total_time :=
                            f64_add (Node.total_time n)
                                    (f64_sub now (Profiler.start_time p));
                          Node.num_samples := Node.num_samples n + 1 |}]>
                 (heap pr) /\
    root pr' = root pr /\ current_node pr' = Node.parent n /\
    current_depth pr' = current_depth pr - 1.
Proof.
  unfold Profiler.stop. destruct (Profiler.stopped p); [discriminate|]. simpl.
  intros H. apply bind_Ok in H as (pri & Hi & H).
  apply bind_Ok in H as (prp & Hp & [= _ <-]).
  apply insert_sample_Ok in Hi as (ch & n & n' & Hc & Hn & Hn' & ->).
  unfold Node.insert_sample in Hn'. case_decide; [|discriminate].
  injection Hn' as <-.
  apply pop_Ok in Hp as (ch' & m & Hc' & Hm & _ & ->). simpl in *.
  assert (ch' = ch) as -> by congruence.
  rewrite list_lookup_insert_eq in Hm by (by eapply lookup_lt_Some).
  injection Hm as <-. exists ch, n. by split_and!.
Qed.

(** X6.  Entering a region again under the same name accumulates into the
    same node.  When a region is opened, stopped, opened again under the
    same name and stopped again (all four calls returning), the second
    constructor allocates nothing and puts the cursor on the node of the
    first one, and after the second [stop] that node has counted two more
    samples and its total has grown by the first and then by the second
    elapsed time. *)
Theorem X6_reentry_accumulates
    pr c name t0 t1 t2 t3 p1 pr1 p1' pr2 p2 pr3 p2' pr4 :
  reachable pr -> current_node pr = Some c ->
  Profiler.new t0 name pr = Ok (p1, pr1) ->
  Profiler.stop t1 p1 pr1 = Ok (p1', pr2) ->
  Profiler.new t2 name pr2 = Ok (p2, pr3) ->
  Profiler.stop t3 p2 pr3 = Ok (p2', pr4) ->
  exists ch n1 n4,
    current_node pr1 = Some ch /\ current_node pr3 = Some ch /\
    heap pr3 = heap pr2 /\ length (heap pr4) = length (heap pr1) /\
    current_node pr2 = Some c /\ current_node pr4 = Some c /\
    heap pr1 !! ch = Some n1 /\ heap pr4 !! ch = Some n4 /\
    Node.name n4 = name /\
    Node.num_samples n4 = Node.num_samples n1 + 2 /\
    Node.total_time n4 =
      f64_add (f64_add (Node.total_time n1) (f64_sub t1 t0)) (f64_sub t3 t2).
Proof.
  intros Hr Hc Hnew1 Hstop1 Hnew2 Hstop2. pose proof (reachable_wf _ Hr) as Hwf.
  unfold Profiler.new in Hnew1.
  apply bind_Ok in Hnew1 as (pr1' & Hpush1 & [= <- <-]).
  destruct (push_enters_child _ _ _ _ Hwf Hc Hpush1)
    as (ch & n1 & nc & Hc1 & Hn1 & Hpar & Hname & _ & _ & Hlt & Hnc & Hfind).
  apply stop_Ok in Hstop1 as (ch' & n1' & Hc1' & Hn1' & Hh2 & _ & Hc2 & _).
  simpl in Hh2. assert (ch' = ch) as -> by congruence.
  assert (n1' = n1) as -> by congruence. rewrite Hpar in Hc2.
  pose proof (lookup_lt_Some _ _ _ Hn1) as Hlt1.
  unfold Profiler.new in Hnew2.
  apply bind_Ok in Hnew2 as (pr3' & Hpush2 & [= <- <-]).
  assert (Hnc2 : heap pr2 !! c = Some nc).
  { rewrite Hh2. rewrite list_lookup_insert_ne by lia. done. }
  assert (Hfind2 : Node.find_child (heap pr2) (Node.childs nc) name
                   = Ok (Some ch)).
  { eapply find_child_same_names; [|exact Hfind].
    intros x cx _ Hcx. rewrite Hh2. destruct (decide (ch = x)) as [<-|].
    - rewrite list_lookup_insert_eq by done.
      assert (cx = n1) as -> by congruence. eauto.
    - rewrite list_lookup_insert_ne by done. eauto. }
  unfold push in Hpush2. rewrite Hc2 in Hpush2.
  unfold Node.get_child in Hpush2. rewrite Hnc2, Hfind2 in Hpush2.
  simpl in Hpush2. apply bind_Ok in Hpush2 as (d & _ & [= <-]).
  apply stop_Ok in Hstop2 as (ch' & n3 & Hc3 & Hn3 & Hh4 & _ & Hc4 & _).
  simpl in *. injection Hc3 as <-.
  rewrite Hh2 in Hn3. rewrite list_lookup_insert_eq in Hn3 by done.
  injection Hn3 as <-. simpl in *. rewrite Hpar in Hc4.
  exists ch, n1,
    {| Node.childs := Node.childs n1; Node.parent := Node.parent n1;
       Node.name := Node.name n1;
       Node.total_time :=
         f64_add (f64_add (Node.total_time n1) (f64_sub t1 t0)) (f64_sub t3 t2);
       Node.num_samples := Node.num_samples n1 + 1 + 1 |}.
  split_and!; try done.
  - by rewrite Hh4, Hh2, !length_insert.
  - rewrite Hh4. apply list_lookup_insert_eq. by rewrite Hh2, length_insert.
  - simpl. lia.
Qed.

Lemma X6_reentry_accumulates_witness :
  exists p1 pr1 p1' pr2 p2 pr3 p2' pr4,
    Profiler.new (f64_of_int 0) "A" new = Ok (p1, pr1) /\
    Profiler.stop (f64_of_int 1) p1 pr1 = Ok (p1', pr2) /\
    Profiler.new (f64_of_int 2) "A" pr2 = Ok (p2, pr3) /\
    Profiler.stop (f64_of_int 4) p2 pr3 = Ok (p2', pr4) /\
    exists ch n1 n4,
      current_node pr1 = Some ch /\ current_node pr3 = Some ch /\
      heap pr3 = heap pr2 /\ length (heap pr4) = length (heap pr1) /\
      current_node pr2 = Some 0%nat /\ current_node pr4 = Some 0%nat /\
      heap pr1 !! ch = Some n1 /\ heap pr4 !! ch = Some n4 /\
      Node.name n4 = "A" /\
      Node.num_samples n4 = Node.num_samples n1 + 2 /\
      Node.total_time n4 =
        f64_add (f64_add (Node.total_time n1)
                         (f64_sub (f64_of_int 1) (f64_of_int 0)))
                (f64_sub (f64_of_int 4) (f64_of_int 2)).
Proof.
  do 8 eexists.
  split; [reflexivity|]. split; [reflexivity|].
  split; [reflexivity|]. split; [reflexivity|].
  eapply (X6_reentry_accumulates new 0%nat "A");
    [apply reach_new | reflexivity..].
Defined.

Lemma insert_sample_fault pr x f :
  insert_sample pr x = Fault f ->
  f = NullDereference \/ f = InvalidPointer \/ f = SignedOverflow.
Proof.
  unfold insert_sample, deref, Node.insert_sample.
  destruct (current_node pr) as [c|]; [|intros [= <-]; auto].
  destruct (heap pr !! c); simpl; [|intros [= <-]; auto].
  case_decide; simpl; [discriminate|]. intros [= <-]. auto.
Qed.

Lemma pop_fault pr f :
  pop pr = Fault f ->
  f = NullDereference \/ f = InvalidPointer \/ f = SignedOverflow.
Proof.
  unfold pop, deref, int_sub.
  destruct (current_node pr) as [c|]; simpl; [|intros [= <-]; auto].
  destruct (heap pr !! c); simpl; [|intros [= <-]; auto].
  case_decide; simpl; [discriminate|]. intros [= <-]. auto.
Qed.

Lemma stop_unstopped_fault now p pr f :
  Profiler.stopped p = false ->
  Profiler.stop now p pr = Fault f ->
  f = NullDereference \/ f = InvalidPointer \/ f = SignedOverflow.
Proof.
  intros Hs. unfold Profiler.stop. rewrite Hs. simpl.
  destruct (insert_sample pr _) as [pri|f1] eqn:Hi; simpl.
  - destruct (pop pri) as [prp|f2] eqn:Hp; simpl; [discriminate|].
    intros [= <-]. by eapply pop_fault.
  - intros [= <-]. by eapply insert_sample_fault.
Qed.

Lemma stops_unstopped nows p pr :
  Profiler.stopped p = false ->
  (forall f, stops nows p pr = Fault f ->
     f = NullDereference \/ f = InvalidPointer \/ f = SignedOverflow) /\
  (forall p' pr', stops nows p pr = Ok (p', pr') -> p' = p).
Proof.
  intros Hs. revert pr. induction nows as [|now nows IH]; intros pr.
  - split; [discriminate|]. by intros p' pr' [= <- <-].
  - cbn [stops].
    destruct (Profiler.stop now p pr) as [[p1 pr1]|f1] eqn:Hstop; simpl.
    + apply Profiler_stop_keeps_handle in Hstop as [-> _]. apply IH.
    + split; [|discriminate]. intros f [= <-]. by eapply stop_unstopped_fault.
Qed.

(** X7.  The assertion of [stop] cannot fire on a handle made by the
    constructor.  However many times [stop] has been called on it, the
    handle still has [stopped == false]: no call of [stop] fails with the
    "already stopped" diagnostic (a call that fails dereferences a bad
    cursor or overflows a counter), and the destructor of the handle runs
    [stop] once more. *)
Theorem X7_stop_never_marks_the_handle t name pr p pr1 nows :
  Profiler.new t name pr = Ok (p, pr1) ->
  (forall info, stops nows p pr1 <> Fault (AssertionFailure info)) /\
  (forall p' pr',
     stops nows p pr1 = Ok (p', pr') ->
     p' = p /\ Profiler.stopped p' = false /\
     forall now,
       Profiler.destroy now p' pr' =
         (let* '(_, pr'') := Profiler.stop now p' pr' in Ok pr'')).
Proof.
  intros Hnew. unfold Profiler.new in Hnew.
  apply bind_Ok in Hnew as (pr1' & _ & [= <- <-]).
  set (p := {| Profiler.start_time := t; Profiler.name := name;
               Profiler.stopped := false |}).
  destruct (stops_unstopped nows p pr1' eq_refl) as [Hf Hok]. split.
  - intros info H. destruct (Hf _ H) as [?|[?|?]]; discriminate.
  - intros p' pr' H. apply Hok in H as ->. split_and!; try done.
Qed.

Lemma X7_stop_never_marks_the_handle_witness :
  exists p pr1 p' pr',
    Profiler.new (f64_of_int 0) "A" new = Ok (p, pr1) /\
    stops [f64_of_int 1; f64_of_int 2] p pr1 = Ok (p', pr') /\
    (forall info,
       stops [f64_of_int 1; f64_of_int 2] p pr1
       <> Fault (AssertionFailure info)) /\
    p' = p /\ Profiler.stopped p' = false.
Proof.
  do 4 eexists. split; [reflexivity|]. split; [reflexivity|].
  destruct (X7_stop_never_marks_the_handle (f64_of_int 0) "A" new _ _
              [f64_of_int 1; f64_of_int 2] eq_refl) as (Hno & Hok).
  split; [exact Hno|].
  destruct (Hok _ _ eq_refl) as (Hp & Hs & _). by split.
Defined.

Lemma extends_at_depth pr pr' i d :
  extends pr pr' -> at_depth (heap pr) i d -> at_depth (heap pr') i d.
Proof.
  intros (_ & _ & H). apply at_depth_mono. intros p n Hn.
  destruct (H _ _ Hn) as (n' & Hn' & _ & _ & [k Hk] & _).
  exists n'. split; [done|]. intros c Hc. rewrite Hk. apply elem_of_app. by left.
Qed.

(** A [stop] with the cursor on a node that has a parent and room for one
    more sample. *)
Lemma stop_at pr ch cn c p now :
  wf pr -> current_node pr = Some ch -> heap pr !! ch = Some cn ->
  Node.parent cn = Some c -> Node.num_samples cn < INT64_MAX ->
  Profiler.stopped p = false ->
  let x := f64_sub now (Profiler.start_time p) in
  let cn' := {| Node.childs := Node.childs cn; Node.parent := Node.parent cn;
                Node.name := Node.name cn;
                Node.total_time := f64_add (Node.total_time cn) x;
                Node.num_samples := Node.num_samples cn + 1 |} in
  let pri := {| heap := <[ch := cn']> (heap pr); root := root pr;
                current_node := Some ch;
                current_depth := current_depth pr |} in
  let pr' := {| heap := <[ch := cn']> (heap pr); root := root pr;
                current_node := Some c;
                current_depth := current_depth pr - 1 |} in
  insert_sample pr x = Ok pri /\ pop pri = Ok pr' /\
  Profiler.stop now p pr = Ok (p, pr').
Proof.
  intros Hwf Hc Hcn Hpar Hroom Hp x cn' pri pr'.
  pose proof (wf_cursor_depth _ _ Hwf Hc) as Hr.
  pose proof (lookup_lt_Some _ _ _ Hcn) as Hlt.
  assert (Hins : insert_sample pr x = Ok pri).
  { unfold insert_sample. rewrite Hc, (deref_Some _ _ _ Hcn). simpl.
    unfold Node.insert_sample. by rewrite decide_True by lia. }
  assert (Hpop : pop pri = Ok pr').
  { unfold pop. simpl. rewrite list_lookup_insert_eq by done. simpl.
    rewrite int_sub_in_range by (unfold INT_MIN; lia). simpl.
    unfold pr'. by rewrite Hpar. }
  split_and!; try done.
  unfold Profiler.stop. rewrite Hp. simpl. fold x. rewrite Hins. simpl.
  by rewrite Hpop.
Qed.

(** X8.  A [TC_PROFILE] block is a balanced step.  From a reachable state
    with a cursor and a depth below INT_MAX the constructor returns and
    enters a child [ch] of the cursor.  If the statements then return with
    the cursor back on [ch] (having only used the records through [push],
    [insert_sample] and [pop]) and the counter of [ch] has room, the block
    returns: the cursor and the depth are those from before the block, no
    node was allocated after the statements, and [ch] has received exactly
    one sample, the time between the two clock readings. *)
Theorem X8_TC_PROFILE_is_balanced pr c name t0 t1 statements :
  reachable pr -> current_node pr = Some c -> current_depth pr < INT_MAX ->
  exists p pr1 ch,
    Profiler.new t0 name pr = Ok (p, pr1) /\ current_node pr1 = Some ch /\
    forall pr2 n2,
      statements pr1 = Ok pr2 -> evolves pr1 pr2 ->
      current_node pr2 = Some ch -> heap pr2 !! ch = Some n2 ->
      Node.num_samples n2 < INT64_MAX ->
      exists pr3 n3,
        TC_PROFILE t0 t1 name statements pr = Ok pr3 /\
        reachable pr3 /\
        current_node pr3 = Some c /\ current_depth pr3 = current_depth pr /\
        length (heap pr3) = length (heap pr2) /\
        heap pr3 !! ch = Some n3 /\
        Node.name n3 = name /\
        Node.num_samples n3 = Node.num_samples n2 + 1 /\
        Node.total_time n3 = f64_add (Node.total_time n2) (f64_sub t1 t0).
Proof.
  intros Hr Hc Hd. pose proof (reachable_wf _ Hr) as Hwf.
  destruct (push_total _ _ name Hwf Hc Hd) as (pr1 & Hpush).
  destruct (push_enters_child _ _ _ _ Hwf Hc Hpush)
    as (ch & cn & nc & Hc1 & Hcn & Hpar & Hname & Hd1 & _).
  pose proof (reach_push _ _ _ Hr Hpush) as Hr1.
  pose proof (reachable_wf _ Hr1) as Hwf1.
  exists {| Profiler.start_time := t0; Profiler.name := name;
            Profiler.stopped := false |}, pr1, ch.
  split; [unfold Profiler.new; by rewrite Hpush|]. split; [done|].
  intros pr2 n2 Hst Hev Hc2 Hn2 Hroom.
  pose proof (evolves_reachable _ _ Hr1 Hev) as Hr2.
  pose proof (reachable_wf _ Hr2) as Hwf2.
  pose proof (evolves_extends _ _ Hev) as Hext.
  destruct Hext as (_ & _ & Hkeep).
  destruct (Hkeep _ _ Hcn) as (n2' & Hn2' & Hname2 & Hpar2 & _).
  assert (n2' = n2) as -> by congruence.
  assert (Hd2 : current_depth pr2 = current_depth pr + 1).
  { pose proof (wf_cursor _ Hwf1) as H1. rewrite Hc1 in H1.
    pose proof (wf_cursor _ Hwf2) as H2. rewrite Hc2 in H2.
    apply (extends_at_depth _ _ _ _ (evolves_extends _ _ Hev)) in H1.
    rewrite <- Hd1. by eapply at_depth_fun. }
  destruct (stop_at pr2 ch n2 c
              {| Profiler.start_time := t0; Profiler.name := name;
                 Profiler.stopped := false |} t1 Hwf2 Hc2 Hn2)
    as (Hins & Hpop & Hstop); [congruence | done | done |].
  simpl in Hins, Hpop, Hstop.
  eexists _, _. split_and!.
  - unfold TC_PROFILE, Profiler.new, Profiler.destroy. rewrite Hpush. simpl.
    rewrite Hst. simpl. rewrite Hstop. simpl. reflexivity.
  - eapply reach_pop; [eapply reach_insert_sample; [exact Hr2|exact Hins]|].
    exact Hpop.
  - done.
  - simpl. lia.
  - simpl. by rewrite length_insert.
  - simpl. apply list_lookup_insert_eq. by eapply lookup_lt_Some.
  - simpl. congruence.
  - done.
  - done.
Qed.

Lemma X8_TC_PROFILE_is_balanced_witness :
  exists pr3,
    TC_PROFILE (f64_of_int 0) (f64_of_int 1) "A" Ok new = Ok pr3 /\
    reachable pr3 /\
    current_node pr3 = Some 0%nat /\ current_depth pr3 = current_depth new.
Proof.
  destruct (X8_TC_PROFILE_is_balanced new 0%nat "A" (f64_of_int 0)
              (f64_of_int 1) Ok reach_new eq_refl eq_refl)
    as (p & pr1 & ch & Hnew & Hc1 & H).
  injection Hnew as <- <-. injection Hc1 as <-.
  destruct (H _ (Node.new "A" (Some 0%nat)) eq_refl (evolves_refl _)
              eq_refl eq_refl eq_refl)
    as (pr3 & n3 & Hrun & Hr3 & Hc3 & Hd3 & _).
  exists pr3. by split_and!.
Defined.

Lemma reachable_root_name pr :
  reachable pr ->
  exists r, heap pr !! 0%nat = Some r /\ Node.name r = "[Taichi Profiler]" /\
            Node.parent r = None.
Proof.
  intros Hr. apply reachable_evolves, evolves_extends in Hr as (_ & _ & H).
  destruct (H 0%nat (Node.new "[Taichi Profiler]" None) eq_refl)
    as (r & Hroot & Hname & Hpar & _). eauto.
Qed.

(** X9.  On every reachable state [print()] returns, and the first thing it
    writes is the line with the name the constructor gave the root,
    "[Taichi Profiler]", without indentation; all it writes comes after
    what was on the output before. *)
Theorem X9_report_starts_with_the_root pr out :
  reachable pr ->
  exists rest,
    print (pr, out) =
      Ok (pr, out ++ Printf ("%s" ++ nl)%string [ArgS "[Taichi Profiler]"]
                       :: rest).
Proof.
  intros Hr. pose proof (reachable_wf _ Hr) as Hwf.
  destruct (reachable_root_name _ Hr) as (r & Hroot & Hname & _).
  unfold print. simpl. rewrite (wf_root _ Hwf).
  destruct (print_node_total pr Hwf (length (heap pr)) 0%nat 0 r out Hroot)
    as (st' & H); [constructor | lia |].
  rewrite H. pose proof (lookup_lt_Some _ _ _ Hroot) as Hlen.
  destruct (length (heap pr)) as [|fuel]; [lia|].
  apply (print_node_step fuel pr (print_node_Ok fuel pr)) in H
    as (n & blocks & Hn & -> & _).
  assert (n = r) as -> by congruence.
  unfold header. simpl. rewrite Hname. eauto.
Qed.

Lemma X9_report_starts_with_the_root_witness :
  exists rest,
    print (records_A, []) =
      Ok (records_A,
          [] ++ Printf ("%s" ++ nl)%string [ArgS "[Taichi Profiler]"] :: rest).
Proof.
  apply (X9_report_starts_with_the_root records_A []).
  apply reachable_records_A.
Defined.

Lemma keeps_shallow_refl d pr : keeps_shallow d pr pr.
Proof. intros i n di Hn _ _. eauto. Qed.

Lemma keeps_shallow_trans d pr1 pr2 pr3 :
  extends pr1 pr2 ->
  keeps_shallow d pr1 pr2 -> keeps_shallow d pr2 pr3 ->
  keeps_shallow d pr1 pr3.
Proof.
  intros Hext H12 H23 i n di Hn Hd Hle.
  destruct (H12 _ _ _ Hn Hd Hle) as (n2 & Hn2 & E1 & E2).
  destruct (H23 i n2 di Hn2) as (n3 & Hn3 & F1 & F2);
    [by eapply extends_at_depth | done |].
  exists n3. split_and!; congruence.
Qed.

Lemma keeps_shallow_weaken d d' pr pr' :
  d <= d' -> keeps_shallow d' pr pr' -> keeps_shallow d pr pr'.
Proof. intros Hle H i n di Hn Hd Hdi. apply (H i n di); [done|done|lia]. Qed.

Lemma push_keeps_samples d pr name pr' :
  push pr name = Ok pr' -> keeps_shallow d pr pr'.
Proof.
  intros H. apply push_Ok in H as (c & ch & h & Hc & Hg & _ & ->).
  apply get_child_Ok in Hg as (n & Hn & [[_ ->]|(_ & -> & ->)]).
  - intros i m di Hm _ _. eauto.
  - intros i m di Hm _ _. simpl. rewrite (lookup_alloc _ _ _ _ _ Hn).
    pose proof (lookup_lt_Some _ _ _ Hm).
    destruct (decide (i = c)) as [->|].
    + assert (m = n) as -> by congruence. eauto.
    + rewrite decide_False by lia. eauto.
Qed.

Lemma stop_evolves now p pr p' pr' :
  Profiler.stop now p pr = Ok (p', pr') -> evolves pr pr'.
Proof.
  unfold Profiler.stop. intros H. apply bind_Ok in H as (_ & _ & H).
  apply bind_Ok in H as (pri & Hi & H).
  apply bind_Ok in H as (prp & Hp & [= _ <-]).
  eapply evolves_pop; [eapply evolves_insert_sample; [apply evolves_refl|]|];
    eauto.
Qed.

(** A [stop] only changes the samples of the node under the cursor, which
    is deeper than every node above it. *)
Lemma stop_keeps_samples now p pr p' pr' :
  wf pr -> Profiler.stop now p pr = Ok (p', pr') ->
  keeps_shallow (current_depth pr - 1) pr pr'.
Proof.
  intros Hwf H. apply stop_Ok in H as (ch & n & Hc & Hn & Hh & _).
  pose proof (wf_cursor _ Hwf) as Hcur. rewrite Hc in Hcur.
  intros i m di Hm Hd Hle. rewrite Hh.
  destruct (decide (ch = i)) as [<-|Hne].
  - pose proof (at_depth_fun _ _ _ _ Hwf Hd Hcur). lia.
  - rewrite list_lookup_insert_ne by done. eauto.
Qed.

(** What a run of regions that returns has done. *)
Lemma run_body_returns body :
  Forall (fun r => forall pr c tr,
            reachable pr -> current_node pr = Some c ->
            run_region r pr = Ok tr ->
            current_node (List.last tr pr) = Some c /\
            current_depth (List.last tr pr) = current_depth pr /\
            evolves pr (List.last tr pr) /\
            keeps_shallow (current_depth pr) pr (List.last tr pr)) body ->
  forall pr c tr,
    reachable pr -> current_node pr = Some c ->
    run_body body pr = Ok tr ->
    current_node (List.last tr pr) = Some c /\
    current_depth (List.last tr pr) = current_depth pr /\
    evolves pr (List.last tr pr) /\
    keeps_shallow (current_depth pr) pr (List.last tr pr).
Proof.
  induction 1 as [|r body Hr Hbody IH]; intros pr c tr Hreach Hc Hrun.
  - injection Hrun as <-. simpl. split_and!; try done.
    + apply evolves_refl.
    + apply keeps_shallow_refl.
  - rewrite run_body_cons in Hrun.
    apply bind_Ok in Hrun as (tr1 & Hrun1 & Hrun).
    apply bind_Ok in Hrun as (tr2 & Hrun2 & [= <-]).
    destruct (Hr _ _ _ Hreach Hc Hrun1) as (Hc1 & Hd1 & He1 & Hk1).
    pose proof (evolves_reachable _ _ Hreach He1) as Hreach1.
    destruct (IH _ _ _ Hreach1 Hc1 Hrun2) as (Hc2 & Hd2 & He2 & Hk2).
    rewrite last_app_default. split_and!; try done.
    + congruence.
    + by eapply evolves_trans.
    + eapply keeps_shallow_trans; [by apply evolves_extends|done|].
      by rewrite <- Hd1.
Qed.

Lemma run_region_returns r pr c tr :
  reachable pr -> current_node pr = Some c ->
  run_region r pr = Ok tr ->
  current_node (List.last tr pr) = Some c /\
  current_depth (List.last tr pr) = current_depth pr /\
  evolves pr (List.last tr pr) /\
  keeps_shallow (current_depth pr) pr (List.last tr pr).
Proof.
  revert pr c tr.
  induction r as [name t_begin t_end body IH] using region_nested_ind.
  intros pr c tr Hreach Hc Hrun. pose proof (reachable_wf _ Hreach) as Hwf.
  rewrite run_region_unfold in Hrun.
  apply bind_Ok in Hrun as ([p pr1] & Hnew & Hrun).
  apply bind_Ok in Hrun as (trb & Hbody & Hrun).
  apply bind_Ok in Hrun as ([p' pr2] & Hstop & [= <-]).
  unfold Profiler.new in Hnew.
  apply bind_Ok in Hnew as (pr1' & Hpush & [= <- <-]).
  destruct (push_enters_child _ _ _ _ Hwf Hc Hpush)
    as (ch & cn & nc & Hc1 & Hcn & Hpar & _ & Hd1 & _).
  pose proof (reach_push _ _ _ Hreach Hpush) as Hreach1.
  destruct (run_body_returns body IH _ _ _ Hreach1 Hc1 Hbody)
    as (Hcb & Hdb & Heb & Hkb).
  set (prb := List.last trb pr1') in *.
  pose proof (evolves_reachable _ _ Hreach1 Heb) as Hreachb.
  pose proof (reachable_wf _ Hreachb) as Hwfb.
  pose proof (stop_evolves _ _ _ _ _ Hstop) as Hes.
  pose proof (stop_keeps_samples _ _ _ _ _ Hwfb Hstop) as Hks.
  apply stop_Ok in Hstop as (ch' & nb & Hcb' & Hnb & _ & _ & Hc2 & Hd2).
  assert (ch' = ch) as -> by congruence.
  destruct (evolves_extends _ _ Heb) as (_ & _ & Hkeep).
  destruct (Hkeep _ _ Hcn) as (nb' & Hnb' & _ & Hparb & _).
  assert (nb' = nb) as -> by congruence.
  change (pr1' :: trb ++ [pr2]) with ((pr1' :: trb) ++ [pr2]).
  rewrite last_app_default. simpl.
  assert (Hpe : evolves pr pr1') by (eapply evolves_push; [apply evolves_refl|done]).
  split_and!.
  - congruence.
  - lia.
  - eapply evolves_trans; [exact Hpe|]. by eapply evolves_trans.
  - eapply keeps_shallow_trans;
      [by apply evolves_extends | by eapply push_keeps_samples |].
    eapply keeps_shallow_trans; [by apply evolves_extends | |].
    + eapply keeps_shallow_weaken; [|exact Hkb]. lia.
    + eapply keeps_shallow_weaken; [|exact Hks]. lia.
Qed.

Lemma below_mono pr pr' c i :
  extends pr pr' -> below (heap pr) c i -> below (heap pr') c i.
Proof.
  intros (_ & _ & H) Hb. induction Hb as [n x Hn Hx|p n x _ IH Hn Hx].
  - destruct (H _ _ Hn) as (n' & Hn' & _ & _ & [k Hk] & _).
    eapply below_child; [exact Hn'|]. rewrite Hk. apply elem_of_app. by left.
  - destruct (H _ _ Hn) as (n' & Hn' & _ & _ & [k Hk] & _).
    eapply below_step; [exact IH|exact Hn'|].
    rewrite Hk. apply elem_of_app. by left.
Qed.

Lemma below_trans (h : list Node.t) c p i :
  below h c p -> below h p i -> below h c i.
Proof.
  intros Hcp Hpi. induction Hpi as [n x Hn Hx|q n x _ IH Hn Hx].
  - by eapply below_step.
  - by eapply below_step.
Qed.

Lemma below_lt pr c i : wf pr -> below (heap pr) c i -> (c < i)%nat.
Proof.
  intros Hwf Hb. induction Hb as [n x Hn Hx|p n x _ IH Hn Hx].
  - by destruct (wf_childs _ Hwf _ _ _ Hn Hx) as (? & _).
  - destruct (wf_childs _ Hwf _ _ _ Hn Hx) as (? & _). lia.
Qed.

Lemma only_below_refl c pr : only_below c pr pr.
Proof. intros i n Hn _. eauto. Qed.

Lemma only_below_trans c pr1 pr2 pr3 :
  extends pr2 pr3 ->
  only_below c pr1 pr2 -> only_below c pr2 pr3 -> only_below c pr1 pr3.
Proof.
  intros Hext H12 H23 i n3 Hn3 Hnb.
  destruct (H23 _ _ Hn3 Hnb) as (n2 & Hn2 & E1 & E2).
  destruct (H12 i n2 Hn2) as (n1 & Hn1 & F1 & F2).
  { intros Hb. apply Hnb. by eapply below_mono. }
  exists n1. split_and!; congruence.
Qed.

(** What is below a node below [c] is below [c]. *)
Lemma only_below_widen c ch pr pr' :
  below (heap pr') c ch -> only_below ch pr pr' -> only_below c pr pr'.
Proof.
  intros Hch H i n' Hn' Hnb. apply (H i n' Hn').
  intros Hb. apply Hnb. by eapply below_trans.
Qed.

Lemma push_only_below pr c name pr' :
  current_node pr = Some c -> push pr name = Ok pr' -> only_below c pr pr'.
Proof.
  intros Hc H. apply push_Ok in H as (c' & ch & h & Hc' & Hg & _ & ->).
  assert (c' = c) as -> by congruence.
  apply get_child_Ok in Hg as (n & Hn & [[_ ->]|(_ & -> & ->)]).
  - intros i m Hm _. eauto.
  - pose proof (lookup_lt_Some _ _ _ Hn) as Hlt.
    intros i m. simpl. rewrite (lookup_alloc _ _ _ _ _ Hn).
    destruct (decide (i = c)) as [->|Hic].
    + intros [= <-] _. eauto.
    + destruct (decide (i = length (heap pr))) as [->|Hil].
      * intros _ Hnb. exfalso. apply Hnb.
        eapply below_child.
        -- rewrite (lookup_alloc _ _ _ _ _ Hn). by rewrite decide_True.
        -- simpl. apply elem_of_app. right. by apply list_elem_of_singleton.
      * intros Hm _. eauto.
Qed.

Lemma stop_only_below now p pr p' pr' c ch :
  current_node pr = Some ch -> below (heap pr') c ch ->
  Profiler.stop now p pr = Ok (p', pr') -> only_below c pr pr'.
Proof.
  intros Hc Hb H. apply stop_Ok in H as (ch' & n & Hc' & Hn & Hh & _).
  assert (ch' = ch) as -> by congruence.
  intros i m Hm Hnb. rewrite Hh in Hm.
  destruct (decide (ch = i)) as [<-|Hne]; [done|].
  rewrite list_lookup_insert_ne in Hm by done. eauto.
Qed.

Lemma run_body_only_below body :
  Forall (fun r => forall pr c tr,
            reachable pr -> current_node pr = Some c ->
            run_region r pr = Ok tr ->
            only_below c pr (List.last tr pr)) body ->
  forall pr c tr,
    reachable pr -> current_node pr = Some c ->
    run_body body pr = Ok tr ->
    only_below c pr (List.last tr pr).
Proof.
  induction 1 as [|r body Hr Hbody IH]; intros pr c tr Hreach Hc Hrun.
  - injection Hrun as <-. apply only_below_refl.
  - rewrite run_body_cons in Hrun.
    apply bind_Ok in Hrun as (tr1 & Hrun1 & Hrun).
    apply bind_Ok in Hrun as (tr2 & Hrun2 & [= <-]).
    destruct (run_region_returns _ _ _ _ Hreach Hc Hrun1) as (Hc1 & _ & He1 & _).
    pose proof (evolves_reachable _ _ Hreach He1) as Hreach1.
    destruct (run_body_returns body) with (pr := List.last tr1 pr) (c := c)
      (tr := tr2) as (_ & _ & He2 & _); [|done|done|done|].
    { apply Forall_forall. intros r0 _ pr0 c0 tr0. apply run_region_returns. }
    rewrite last_app_default.
    eapply only_below_trans; [by apply evolves_extends| |].
    + by eapply Hr.
    + by eapply IH.
Qed.

Lemma run_region_only_below r pr c tr :
  reachable pr -> current_node pr = Some c ->
  run_region r pr = Ok tr ->
  only_below c pr (List.last tr pr).
Proof.
  revert pr c tr.
  induction r as [name t_begin t_end body IH] using region_nested_ind.
  intros pr c tr Hreach Hc Hrun. pose proof (reachable_wf _ Hreach) as Hwf.
  rewrite run_region_unfold in Hrun.
  apply bind_Ok in Hrun as ([p pr1] & Hnew & Hrun).
  apply bind_Ok in Hrun as (trb & Hbody & Hrun).
  apply bind_Ok in Hrun as ([p' pr2] & Hstop & [= <-]).
  unfold Profiler.new in Hnew.
  apply bind_Ok in Hnew as (pr1' & Hpush & [= <- <-]).
  destruct (push_enters_child _ _ _ _ Hwf Hc Hpush)
    as (ch & cn & nc & Hc1 & Hcn & _ & _ & _ & _ & _ & Hnc & Hfind).
  apply find_child_Some in Hfind as (Hin & _).
  assert (Hb1 : below (heap pr1') c ch) by (by eapply below_child).
  pose proof (reach_push _ _ _ Hreach Hpush) as Hreach1.
  destruct (run_body_returns body) with (pr := pr1') (c := ch) (tr := trb)
    as (Hcb & _ & Heb & _); [|done|done|done|].
  { apply Forall_forall. intros r0 _ pr0 c0 tr0. apply run_region_returns. }
  pose proof (run_body_only_below body IH _ _ _ Hreach1 Hc1 Hbody) as Hob.
  set (prb := List.last trb pr1') in *.
  pose proof (stop_evolves _ _ _ _ _ Hstop) as Hes.
  pose proof (below_mono _ _ _ _ (evolves_extends _ _ Heb) Hb1) as Hbb.
  pose proof (below_mono _ _ _ _ (evolves_extends _ _ Hes) Hbb) as Hb2.
  change (pr1' :: trb ++ [pr2]) with ((pr1' :: trb) ++ [pr2]).
  rewrite last_app_default. simpl.
  eapply only_below_trans; [by apply evolves_extends| |].
  - eapply only_below_trans; [by apply evolves_extends| |].
    + by eapply push_only_below.
    + by eapply only_below_widen.
  - by eapply stop_only_below.
Qed.

(** X10.  A run of nested regions that returns leaves the cursor and the
    depth where they were, and all it does to the samples it does below the
    node it started under: every node of the final state that is not below
    that node (through child links) was there before the run, with the
    total time and the sample count it has after it.  The node the run
    started under is such a node. *)
Theorem X10_nested_run_samples_only_below pr c n r tr :
  reachable pr -> current_node pr = Some c -> heap pr !! c = Some n ->
  run_region r pr = Ok tr ->
  let pr' := List.last tr pr in
  current_node pr' = Some c /\ current_depth pr' = current_depth pr /\
  (forall i n',
     heap pr' !! i = Some n' -> ~ below (heap pr') c i ->
     exists n0, heap pr !! i = Some n0 /\
       Node.total_time n' = Node.total_time n0 /\
       Node.num_samples n' = Node.num_samples n0) /\
  (exists n', heap pr' !! c = Some n' /\
     Node.total_time n' = Node.total_time n /\
     Node.num_samples n' = Node.num_samples n).
Proof.
  intros Hr Hc Hn Hrun pr'.
  destruct (run_region_returns _ _ _ _ Hr Hc Hrun) as (Hc' & Hd' & Hev & _).
  pose proof (run_region_only_below _ _ _ _ Hr Hc Hrun) as Hob.
  fold pr' in Hc', Hd', Hev, Hob.
  pose proof (reachable_wf _ (evolves_reachable _ _ Hr Hev)) as Hwf'.
  split_and!; try done.
  destruct (evolves_extends _ _ Hev) as (_ & _ & Hkeep).
  destruct (Hkeep _ _ Hn) as (n' & Hn' & _).
  destruct (Hob c n' Hn') as (n0 & Hn0 & E1 & E2).
  { intros Hb. apply (below_lt _ _ _ Hwf') in Hb. lia. }
  assert (n0 = n) as -> by congruence. eauto.
Qed.

Lemma X10_nested_run_samples_only_below_witness :
  exists tr,
    run_region region_A_B new = Ok tr /\
    let pr' := List.last tr new in
    current_node pr' = Some 0%nat /\ current_depth pr' = current_depth new /\
    (forall i n',
       heap pr' !! i = Some n' -> ~ below (heap pr') 0%nat i ->
       exists n0, heap new !! i = Some n0 /\
         Node.total_time n' = Node.total_time n0 /\
         Node.num_samples n' = Node.num_samples n0) /\
    (exists n', heap pr' !! 0%nat = Some n' /\
       Node.total_time n' = Node.total_time (Node.new "[Taichi Profiler]" None) /\
       Node.num_samples n' = Node.num_samples (Node.new "[Taichi Profiler]" None)).
Proof.
  eexists. split; [reflexivity|].
  apply (X10_nested_run_samples_only_below new 0%nat
           (Node.new "[Taichi Profiler]" None) region_A_B);
    [apply reach_new | reflexivity | reflexivity | reflexivity].
Defined.

(** X11.  The top level of the report never shows percentages.  After any
    sequence of nested regions run on fresh records, the root has received
    no sample, so its averaged total is 0 and [print()] takes the branch
    below the threshold at the root: it writes the root line, then for every
    child of the root one level of indentation, the averaged time of the
    child in seconds with its name, and the report of that child; it writes
    no "[unaccounted]" line for the root. *)
Theorem X11_top_level_is_listed_in_seconds rs tr out :
  run_body rs new = Ok tr ->
  let pr := List.last tr new in
  exists r blocks,
    heap pr !! 0%nat = Some r /\
    Node.total_time r = f64_zero /\ Node.num_samples r = 1 /\
    print (pr, out) =
      Ok (pr, out ++ Printf ("%s" ++ nl)%string [ArgS "[Taichi Profiler]"]
                     :: concat blocks) /\
    Forall2
      (fun ch block =>
         exists c sub,
           heap pr !! ch = Some c /\
           block = indent 1
                     ++ Printf ("%6.2f %s" ++ nl)%string
                          [ArgF (Node.get_averaged c); ArgS (Node.name c)]
                     :: sub /\
           exists fuel, prints fuel pr ch 1 sub)
      (Node.childs r) blocks.
Proof.
  intros Hrun pr.
  destruct (run_body_returns rs) with (pr := new) (c := 0%nat) (tr := tr)
    as (_ & _ & Hev & Hk); [|apply reach_new|done|done|].
  { apply Forall_forall. intros r _ pr0 c tr0. apply run_region_returns. }
  fold pr in Hev, Hk.
  pose proof (evolves_reachable _ _ reach_new Hev) as Hr.
  pose proof (reachable_wf _ Hr) as Hwf.
  destruct (Hk 0%nat (Node.new "[Taichi Profiler]" None) 0 eq_refl)
    as (r & Hroot & Htot & Hnum); [constructor | done |].
  simpl in Htot, Hnum.
  destruct (reachable_root_name _ Hr) as (r' & Hroot' & Hname & _).
  assert (r' = r) as -> by congruence.
  assert (Havg : f64_lt (Node.get_averaged r) lit_1e_6f = true).
  { unfold Node.get_averaged. by rewrite Htot, Hnum. }
  unfold print. simpl. rewrite (wf_root _ Hwf).
  destruct (print_node_total pr Hwf (length (heap pr)) 0%nat 0 r out Hroot)
    as (st' & H); [constructor | lia |].
  rewrite H. pose proof (lookup_lt_Some _ _ _ Hroot) as Hlen.
  destruct (length (heap pr)) as [|fuel] eqn:Efuel; [lia|].
  apply (print_node_step fuel pr (print_node_Ok fuel pr)) in H
    as (n & blocks & Hn & -> & _ & Hblocks).
  assert (n = r) as -> by congruence.
  exists r, blocks. split_and!; try done.
  - unfold header, trailer, unaccounted_shown, negligible. rewrite Havg, Hname.
    simpl. by rewrite app_nil_r.
  - eapply Forall2_impl; [exact Hblocks|]. simpl.
    intros ch block (c & sub & Hc & -> & Hsub).
    exists c, sub. split_and!; try done.
    + unfold child_line, negligible. by rewrite Havg.
    + by exists fuel.
Qed.

Lemma X11_top_level_is_listed_in_seconds_witness :
  exists tr r blocks,
    run_body [region_A_B] new = Ok tr /\
    heap (List.last tr new) !! 0%nat = Some r /\
    Node.total_time r = f64_zero /\ Node.num_samples r = 1 /\
    print (List.last tr new, []) =
      Ok (List.last tr new,
          [] ++ Printf ("%s" ++ nl)%string [ArgS "[Taichi Profiler]"]
                :: concat blocks).
Proof.
  assert (H : exists tr, run_body [region_A_B] new = Ok tr).
  { vm_compute. eexists. reflexivity. }
  destruct H as (tr & H).
  destruct (X11_top_level_is_listed_in_seconds [region_A_B] tr [] H)
    as (r & blocks & Hroot & Htot & Hnum & Hprint & _).
  exists tr, r, blocks. by split_and!.
Defined.

(** X12.  A node without children adds nothing below its own line: for such
    a node [print(node, depth)] always returns, and it writes nothing at
    all when [depth] is not 0 and only the name line when it is; in
    particular no "[unaccounted]" line, whatever the times of the node. *)
Theorem X12_leaf_prints_nothing_below fuel pr node depth n out :
  heap pr !! node = Some n -> Node.childs n = [] ->
  print_node (S fuel) node depth (pr, out) =
    Ok (pr, out ++ (if depth =? 0
                    then [Printf ("%s" ++ nl)%string [ArgS (Node.name n)]]
                    else [])).
Proof.
  intros Hn Hkids. cbn [print_node]. rewrite (deref_Some _ _ _ Hn). cbn [bind].
  destruct (depth =? 0) eqn:E.
  - apply Z.eqb_eq in E as ->. unfold make_indent. simpl.
    rewrite app_nil_r, Hkids.
    destruct (f64_lt (Node.get_averaged n) lit_1e_6f); [done|].
    by destruct (f64_lt (Node.get_averaged n) lit_0_1).
  - cbn [bind]. rewrite app_nil_r, Hkids.
    destruct (f64_lt (Node.get_averaged n) lit_1e_6f); [done|].
    by destruct (f64_lt (Node.get_averaged n) lit_0_1).
Qed.

Lemma X12_leaf_prints_nothing_below_witness :
  print_node 1 1 1 (records_A, []) = Ok (records_A, [] ++ []).
Proof.
  apply (X12_leaf_prints_nothing_below 0 records_A 1%nat 1
           (Node.new "A" (Some 0%nat)) []); reflexivity.
Defined.

(** X13.  [get_averaged] is defined for every node value, also one whose
    sample count is zero or negative: the divisor, the conversion of
    [max(num_samples, 1)], is always a positive finite number; a count below
    1 is averaged as if it were 1; and a total of 0 gives the average 0. *)
Theorem X13_get_averaged_guard (n : Node.t) :
  Node.num_samples n <= INT64_MAX ->
  (exists m e,
     f64_of_int (Z.max (Node.num_samples n) 1) = S754_finite false m e) /\
  (Node.num_samples n <= 1 ->
     Node.get_averaged n = f64_div (Node.total_time n) (f64_of_int 1)) /\
  (Node.total_time n = f64_zero -> Node.get_averaged n = f64_zero).
Proof.
  intros Hle.
  destruct (f64_of_int_finite (Z.max (Node.num_samples n) 1)) as (m & e & E);
    [unfold INT64_MAX in *; lia|].
  split_and!.
  - eauto.
  - intros H. unfold Node.get_averaged.
    by replace (Z.max (Node.num_samples n) 1) with 1 by lia.
  - intros H. unfold Node.get_averaged. by rewrite H, E.
Qed.

Lemma X13_get_averaged_guard_witness :
  let n := {| Node.childs := []; Node.parent := None; Node.name := "n";
              Node.total_time := f64_zero; Node.num_samples := 0 |} in
  (exists m e,
     f64_of_int (Z.max (Node.num_samples n) 1) = S754_finite false m e) /\
  Node.get_averaged n = f64_div (Node.total_time n) (f64_of_int 1) /\
  Node.get_averaged n = f64_zero.
Proof.
  intros n.
  destruct (X13_get_averaged_guard n) as (Hdiv & Hlow & Hzero).
  { simpl. unfold INT64_MAX. lia. }
  split; [exact Hdiv|]. split.
  - apply Hlow. simpl. lia.
  - apply Hzero. reflexivity.
Defined.
